(** * cmt.events.manager: the EventManager lifecycle

    A shallow embedding of [src/cmt/events/manager.py].  The manager is a
    Python object with four boolean flags, a timeline and a registration
    list; its methods call back into duck-typed event objects and may be
    left half-way by an exception.  The methods are written in a small
    state-and-exception monad over the manager together with a log of the
    event operations invoked and of the lines printed. *)

From Stdlib Require Import List String ZArith Bool Lia Permutation.
Import ListNotations.
Local Open Scope string_scope.
Local Open Scope list_scope.

Set Implicit Arguments.

(** ** Python exceptions and results *)

(** The exceptions that can travel through the manager.  The manager only
    ever tests two things about an exception: whether it is an instance of
    [Exception] (the handler in [initialize]) and whether it is an instance
    of [AttributeError] (the handler in [run]). *)
Inductive Exn : Type :=
| AttributeError
| NameError (name : string)
| ConfigError (what : string)
| EventError (tag : nat)
| NonException (tag : nat).

Definition isinstance_Exception (x : Exn) : bool :=
  match x with
  | NonException _ => false
  | _ => true
  end.

Definition isinstance_AttributeError (x : Exn) : bool :=
  match x with
  | AttributeError => true
  | _ => false
  end.

(** What a call produces: a value, a raised exception, or (for the model
    only) exhaustion of the recursion budget. *)
Inductive Res (A : Type) : Type :=
| Ok (a : A)
| Raise (x : Exn)
| OutOfFuel.

Arguments Ok {A} a.
Arguments Raise {A} x.
Arguments OutOfFuel {A}.

(** ** Events *)

(** How an event operation ends. *)
Inductive Outcome : Type :=
| Returns
| Raises (x : Exn).

(** The body of an event's [run] or [update] operation, as far as the
    manager can observe it: the calls [manager.run(t)] it makes on the
    manager that is dispatching it, and then how it ends. *)
Record Body (Time : Type) : Type := mkBody {
  reenter : list Time;
  outcome : Outcome
}.

Arguments mkBody {Time} reenter outcome.

(** Events are duck typed: each of the four operations may be missing, in
    which case looking the attribute up raises [AttributeError] before
    anything is invoked. *)
Class EventLike (E Time : Type) : Type := {
  ev_initialize : E -> option Outcome;
  ev_run : E -> option (Time -> Body Time);
  ev_update : E -> option (Time -> Body Time);
  ev_finalize : E -> option Outcome
}.

(** The operations of an event that the manager invokes. *)
Inductive Op (Time : Type) : Type :=
| OpInitialize
| OpRun (t : Time)
| OpUpdate (t : Time)
| OpFinalize.

Arguments OpInitialize {Time}.
Arguments OpRun {Time} t.
Arguments OpUpdate {Time} t.
Arguments OpFinalize {Time}.

Definition is_dispatch {Time : Type} (o : Op Time) : bool :=
  match o with
  | OpRun _ | OpUpdate _ => true
  | _ => false
  end.

(** What the [print] statement writes. *)
Inductive Printed (E : Type) : Type :=
| PStr (s : string)
| PEvent (e : E).

Arguments PStr {E} s.
Arguments PEvent {E} e.

(** ** The manager *)

(** One step of the generator returned by [Timeline.iter_until]. *)
Inductive GenStep (E Gen Timeline : Type) : Type :=
| Yield (event : E) (g : Gen) (tl : Timeline)
| StopIteration (tl : Timeline)
| GenRaise (x : Exn) (tl : Timeline).

Arguments Yield {E Gen Timeline} event g tl.
Arguments StopIteration {E Gen Timeline} tl.
Arguments GenRaise {E Gen Timeline} x tl.

(** The instance attributes set by [EventManager.__init__]. *)
Record EventManager (E Interval Timeline : Type) : Type := mkEventManager {
  _timeline : Timeline;
  _initializing : bool;
  _initialized : bool;
  _running : bool;
  _finalizing : bool;
  _order : list (E * Interval)
}.

(** The manager, the event operations invoked so far (oldest first) and
    the lines printed so far. *)
Record Sys (E Time Interval Timeline : Type) : Type := mkSys {
  self : EventManager E Interval Timeline;
  calls : list (E * Op Time);
  stdout : list (Printed E)
}.

Section Manager.

Variables E Time Interval : Type.
Context {EV : EventLike E Time}.

(** [cmt.timeline.Timeline] is not among the sources: the manager is
    verified against an arbitrary timeline.  [gen_next g tl] resumes the
    generator [g] on the timeline object in state [tl]. *)
Variables Timeline Gen : Type.
Variable Timeline_new : list (E * Interval) -> Timeline.
Variable tl_time : Timeline -> Time.
Variable tl_add_recurring_event :
  E -> Interval -> Timeline -> Timeline * Res unit.
Variable iter_until : Time -> Gen.
Variable gen_next : Gen -> Timeline -> GenStep E Gen Timeline.

Local Abbreviation Manager := (EventManager E Interval Timeline).
Local Abbreviation System := (Sys E Time Interval Timeline).

(** *** The monad *)

Definition M (A : Type) : Type := System -> System * Res A.

Definition ret {A : Type} (a : A) : M A := fun s => (s, Ok a).

Definition bind {A B : Type} (m : M A) (k : A -> M B) : M B :=
  fun s =>
    match m s with
    | (s', Ok a) => k a s'
    | (s', Raise x) => (s', Raise x)
    | (s', OutOfFuel) => (s', OutOfFuel)
    end.

Definition raise {A : Type} (x : Exn) : M A := fun s => (s, Raise x).

Definition out_of_fuel {A : Type} : M A := fun s => (s, OutOfFuel).

(** [try: body except C as x: handler x], where [catches] says whether
    an exception is an instance of [C]. *)
Definition try_except {A : Type} (body : M A) (catches : Exn -> bool)
    (handler : Exn -> M A) : M A :=
  fun s =>
    match body s with
    | (s', Raise x) => if catches x then handler x s' else (s', Raise x)
    | other => other
    end.

Definition gets {A : Type} (f : Manager -> A) : M A :=
  fun s => (s, Ok (f (self s))).

Definition modify (f : Manager -> Manager) : M unit :=
  fun s => (mkSys (f (self s)) (calls s) (stdout s), Ok tt).

Definition log (e : E) (o : Op Time) : M unit :=
  fun s => (mkSys (self s) (calls s ++ [(e, o)]) (stdout s), Ok tt).

Definition print (p : Printed E) : M unit :=
  fun s => (mkSys (self s) (calls s) (stdout s ++ [p]), Ok tt).

Notation "x <- m ;; k" := (bind m (fun x => k))
  (at level 61, m at next level, right associativity).
Notation "m ;; k" := (bind m (fun _ => k))
  (at level 61, right associativity).

(** [for x in l: body x] *)
Fixpoint for_each {A : Type} (l : list A) (body : A -> M unit) : M unit :=
  match l with
  | [] => ret tt
  | x :: l' => body x ;; for_each l' body
  end.

(** *** Attribute assignments *)

Definition set_timeline (tl : Timeline) (m : Manager) : Manager :=
  mkEventManager tl (_initializing m) (_initialized m) (_running m)
    (_finalizing m) (_order m).

Definition set_initializing (b : bool) (m : Manager) : Manager :=
  mkEventManager (_timeline m) b (_initialized m) (_running m)
    (_finalizing m) (_order m).

Definition set_initialized (b : bool) (m : Manager) : Manager :=
  mkEventManager (_timeline m) (_initializing m) b (_running m)
    (_finalizing m) (_order m).

Definition set_running (b : bool) (m : Manager) : Manager :=
  mkEventManager (_timeline m) (_initializing m) (_initialized m) b
    (_finalizing m) (_order m).

Definition set_finalizing (b : bool) (m : Manager) : Manager :=
  mkEventManager (_timeline m) (_initializing m) (_initialized m)
    (_running m) b (_order m).

Definition set_order (l : list (E * Interval)) (m : Manager) : Manager :=
  mkEventManager (_timeline m) (_initializing m) (_initialized m)
    (_running m) (_finalizing m) l.

(** *** Calling into an event *)

Definition finish (o : Outcome) : M unit :=
  match o with
  | Returns => ret tt
  | Raises x => raise x
  end.

(** [event.initialize()] *)
Definition call_initialize (event : E) : M unit :=
  match ev_initialize event with
  | None => raise AttributeError
  | Some o => log event OpInitialize ;; finish o
  end.

(** [event.finalize()] *)
Definition call_finalize (event : E) : M unit :=
  match ev_finalize event with
  | None => raise AttributeError
  | Some o => log event OpFinalize ;; finish o
  end.

(** Running the body of a [run] or [update] operation: its calls of
    [manager.run] go to [rec], then it returns or raises. *)
Definition exec_body (rec : Time -> M unit) (b : Body Time) : M unit :=
  for_each (reenter b) rec ;; finish (outcome b).

(** [event.run(self._timeline.time)]: the attribute is looked up first,
    then the argument is evaluated, then the call is made. *)
Definition call_run (rec : Time -> M unit) (event : E) : M unit :=
  match ev_run event with
  | None => raise AttributeError
  | Some body =>
      t <- gets (fun m => tl_time (_timeline m)) ;;
      log event (OpRun t) ;;
      exec_body rec (body t)
  end.

(** [event.update(self._timeline.time)] *)
Definition call_update (rec : Time -> M unit) (event : E) : M unit :=
  match ev_update event with
  | None => raise AttributeError
  | Some body =>
      t <- gets (fun m => tl_time (_timeline m)) ;;
      log event (OpUpdate t) ;;
      exec_body rec (body t)
  end.

(** *** The methods of [EventManager] *)

(** The new manager, for a call [Timeline(events)] that returns; the
    statements about a manager that exists do not turn on whether that
    call can raise. *)
Definition __init__ (events : list (E * Interval)) : Manager :=
  mkEventManager (Timeline_new events) false false false false events.

(** The body of the loop of [initialize] for one entry [(event, _)]. *)
Definition initialize_entry (entry : E * Interval) : M unit :=
  let event := fst entry in
  try_except (call_initialize event) isinstance_Exception
    (fun error =>
       print (PStr "error initializing") ;;
       print (PEvent event) ;;
       raise error).

Definition initialize : M unit :=
  initializing <- gets (@_initializing _ _ _) ;;
  if negb initializing then
    modify (set_initializing true) ;;
    order <- gets (@_order _ _ _) ;;
    for_each order initialize_entry ;;
    modify (set_initialized true)
  else ret tt.

(** The statement [try: event.run(time) except AttributeError:
    event.update(time)]. *)
Definition dispatch (rec : Time -> M unit) (event : E) : M unit :=
  try_except (call_run rec event) isinstance_AttributeError
    (fun _ => call_update rec event).

(** The [for] loop of [run] over the generator: each step resumes the
    generator on the timeline as it is then. *)
Fixpoint run_loop (rec : Time -> M unit) (fuel : nat) (g : Gen) : M unit :=
  match fuel with
  | O => out_of_fuel
  | S fuel' =>
      tl <- gets (@_timeline _ _ _) ;;
      match gen_next g tl with
      | StopIteration tl' => modify (set_timeline tl')
      | GenRaise x tl' => modify (set_timeline tl') ;; raise x
      | Yield event g' tl' =>
          modify (set_timeline tl') ;;
          dispatch rec event ;;
          run_loop rec fuel' g'
      end
  end.

(** The body of [run], with the calls of [run] made from inside event
    operations going to [rec]. *)
Definition run_body (rec : Time -> M unit) (fuel : nat) (stop_time : Time)
    : M unit :=
  initialize ;;
  running <- gets (@_running _ _ _) ;;
  if negb running then
    modify (set_running true) ;;
    run_loop rec fuel (iter_until stop_time) ;;
    modify (set_running false)
  else ret tt.

(** [run(stop_time)].  The budget bounds both the depth of the calls of
    [run] from inside event operations and the number of steps of the
    generator. *)
Fixpoint run (fuel : nat) (stop_time : Time) : M unit :=
  match fuel with
  | O => out_of_fuel
  | S fuel' => run_body (run fuel') (S fuel') stop_time
  end.

Definition finalize : M unit :=
  initialized <- gets (@_initialized _ _ _) ;;
  if initialized then
    finalizing <- gets (@_finalizing _ _ _) ;;
    (if negb finalizing then
       modify (set_finalizing true) ;;
       order <- gets (@_order _ _ _) ;;
       for_each (rev order) (fun entry => call_finalize (fst entry))
     else ret tt) ;;
    modify (set_initialized false)
  else ret tt.

(** A call of a method of the timeline object: it leaves the timeline in
    a new state and returns or raises. *)
Definition on_timeline {A : Type} (f : Timeline -> Timeline * Res A) : M A :=
  fun s =>
    let (tl, r) := f (_timeline (self s)) in
    (mkSys (set_timeline tl (self s)) (calls s) (stdout s), r).

(** [self._timeline.add_recurring_event(event, interval)] may raise, in
    which case the entry is not appended. *)
Definition add_recurring_event (event : E) (interval : Interval) : M unit :=
  on_timeline (tl_add_recurring_event event interval) ;;
  modify (fun m => set_order (_order m ++ [(event, interval)]) m).

Definition time : M Time := gets (fun m => tl_time (_timeline m)).

Definition __enter__ : M unit := initialize.

Definition __exit__ : M unit := finalize.

(** *** Vocabulary for the statements *)

(** The invocations of a walk over registration entries. *)
Definition init_calls (l : list (E * Interval)) : list (E * Op Time) :=
  map (fun entry => (fst entry, OpInitialize)) l.

Definition finalize_calls (l : list (E * Interval)) : list (E * Op Time) :=
  map (fun entry => (fst entry, OpFinalize)) l.

Definition res_of (o : Outcome) : Res unit :=
  match o with
  | Returns => Ok tt
  | Raises x => Raise x
  end.

(** What the fallback to [update] invokes and how it ends. *)
Definition update_calls (e : E) (t : Time) : list (E * Op Time) :=
  match ev_update e with
  | Some _ => [(e, OpUpdate t)]
  | None => []
  end.

Definition update_outcome (e : E) (t : Time) : Outcome :=
  match ev_update e with
  | Some body => outcome (body t)
  | None => Raises AttributeError
  end.

(** Whether the [run] attempt ends in the [except AttributeError]
    clause. *)
Definition falls_back (e : E) (t : Time) : bool :=
  match ev_run e with
  | Some body =>
      match outcome (body t) with
      | Raises x => isinstance_AttributeError x
      | Returns => false
      end
  | None => true
  end.

(** The invocations made by dispatching [e] at time [t], and how the
    dispatch ends. *)
Definition dispatch_calls (e : E) (t : Time) : list (E * Op Time) :=
  match ev_run e with
  | Some _ => [(e, OpRun t)]
  | None => []
  end ++ (if falls_back e t then update_calls e t else []).

Definition dispatch_outcome (e : E) (t : Time) : Outcome :=
  if falls_back e t then update_outcome e t
  else
    match ev_run e with
    | Some body => outcome (body t)
    | None => Raises AttributeError
    end.

Definition due_calls (evs : list (E * Timeline)) : list (E * Op Time) :=
  flat_map (fun d => dispatch_calls (fst d) (tl_time (snd d))) evs.

(** Every one of these due occurrences is dispatched without error. *)
Definition benign (evs : list (E * Timeline)) : Prop :=
  forall occ, In occ evs ->
    dispatch_outcome (fst occ) (tl_time (snd occ)) = Returns.

(** The generator, resumed again and again from [(g, tl)] on a timeline
    nobody else touches, yields the due occurrences [evs] (each event
    with the timeline as it is when the event is yielded) and is then
    at [(g', tl')]. *)
Inductive yields : Gen -> Timeline -> list (E * Timeline) ->
                   Gen -> Timeline -> Prop :=
| yields_nil : forall g tl, yields g tl [] g tl
| yields_cons : forall g tl e g1 tl1 evs g' tl',
    gen_next g tl = Yield e g1 tl1 ->
    yields g1 tl1 evs g' tl' ->
    yields g tl ((e, tl1) :: evs) g' tl'.

(** The manager is inside the loop of [run]. *)
Definition dispatching (s : System) : Prop :=
  _running (self s) = true /\ _initializing (self s) = true.

End Manager.

Arguments init_calls {E Time Interval} l.
Arguments finalize_calls {E Time Interval} l.

(** The same events with the calls of [manager.run] taken out of their
    [run] and [update] operations. *)
Definition without_reentry {E Time : Type} (EV : EventLike E Time)
    : EventLike E Time := {|
  ev_initialize := ev_initialize;
  ev_run := fun e =>
    option_map (fun body t => mkBody [] (outcome (body t))) (ev_run e);
  ev_update := fun e =>
    option_map (fun body t => mkBody [] (outcome (body t))) (ev_update e);
  ev_finalize := ev_finalize
|}.

(** ** Construction from a configuration *)

Definition res_bind {A B : Type} (r : Res A) (k : A -> Res B) : Res B :=
  match r with
  | Ok a => k a
  | Raise x => Raise x
  | OutOfFuel => OutOfFuel
  end.

(** The names bound at module level in [manager.py]: its two import
    statements and its one class statement. *)
Definition module_globals : list string :=
  ["Timeline"; "names_with_prefix"; "strip_prefix"; "EventManager"].

(** The builtins the module refers to. *)
Definition builtins : list string :=
  ["object"; "list"; "Exception"; "AttributeError"; "classmethod";
   "property"].

(** Loading a global name: the module's globals, then the builtins, and
    [NameError] when neither binds it. *)
Definition load_global (name : string) : Res unit :=
  if existsb (String.eqb name) (module_globals ++ builtins) then Ok tt
  else Raise (NameError name).

(** A name read from a configuration is a [str]: it has none of the
    event operations. *)
#[export] Instance str_EventLike (Time : Type) : EventLike string Time := {
  ev_initialize := fun _ => None;
  ev_run := fun _ => None;
  ev_update := fun _ => None;
  ev_finalize := fun _ => None
}.

Section Construction.

(** The standard library's [ConfigParser] and [StringIO], and
    [cmt.utils.prefix.names_with_prefix], which is not among the
    sources, are taken as given. *)
Variables Config Timeline : Type.
Variable sections : Config -> list string.
Variable get : Config -> string -> string -> Res string.
Variable readfp : string -> Res Config.
Variable read : string -> Res Config.
Variable names_with_prefix : list string -> string -> list string.
Variable Timeline_new : list (string * string) -> Timeline.

(** The loop of [_from_config]: [events.append((name, config.get(name,
    'interval')))] for each name. *)
Fixpoint from_config_loop (config : Config) (names : list string)
    (events : list (string * string)) : Res (list (string * string)) :=
  match names with
  | [] => Ok events
  | name :: rest =>
      res_bind (get config name "interval") (fun interval =>
        from_config_loop config rest (events ++ [(name, interval)]))
  end.

Definition _from_config (config : Config) (prefix : string)
    : Res (EventManager string string Timeline) :=
  let event_names := names_with_prefix (sections config) prefix in
  res_bind (from_config_loop config event_names []) (fun events =>
    Ok (__init__ Timeline_new events)).

Definition from_string (source prefix : string)
    : Res (EventManager string string Timeline) :=
  res_bind (load_global "ConfigParser") (fun _ =>
  res_bind (load_global "StringIO") (fun _ =>
  res_bind (readfp source) (fun config =>
    _from_config config prefix))).

Definition from_path (path prefix : string)
    : Res (EventManager string string Timeline) :=
  res_bind (load_global "ConfigParser") (fun _ =>
  res_bind (read path) (fun config =>
    _from_config config prefix)).

End Construction.

(** ** A concrete timeline and concrete events *)

(** An event object given by what each of its operations does; times are
    integers. *)
Record EventObject : Type := mkEventObject {
  name : string;
  on_initialize : option Outcome;
  on_run : option (Z -> Body Z);
  on_update : option (Z -> Body Z);
  on_finalize : option Outcome
}.

#[export] Instance EventObject_EventLike : EventLike EventObject Z := {
  ev_initialize := on_initialize;
  ev_run := on_run;
  ev_update := on_update;
  ev_finalize := on_finalize
}.

Module SpecTimeline.
Section SpecTimeline.

Variable E : Type.

(** Modelled from the spec: the Timeline ([cmt.timeline] is not among
  the sources).  It owns the clock and, for each tracked event in
  registration order, its next fire time and its interval. *)
Record Timeline : Type := mkTimeline {
clock : Z;
schedule : list (E * Z * Z)
}.

(** Modelled from the spec: a new timeline starts at time zero, and the
    first fire time of an event is one interval after the clock.  The
    construction is the one for positive intervals; what the timeline
    does with an interval that is not positive is not modelled here. *)
Definition Timeline_new (events : list (E * Z)) : Timeline :=
mkTimeline 0 (map (fun entry => (fst entry, snd entry, snd entry)) events).

Definition tl_time (tl : Timeline) : Z := clock tl.

(** Modelled from the spec: [register_recurring] schedules the event
    from the current clock, and an interval that is not positive is a
    configuration error. *)
Definition tl_add_recurring_event (event : E) (interval : Z)
    (tl : Timeline) : Timeline * Res unit :=
  if (0 <? interval)%Z then
    (mkTimeline (clock tl)
       (schedule tl ++ [(event, (clock tl + interval)%Z, interval)]),
     Ok tt)
  else (tl, Raise (ConfigError "interval must be positive")).

(** The smallest next fire time of a schedule. *)
Fixpoint earliest (sch : list (E * Z * Z)) : option Z :=
match sch with
| [] => None
| (_, t, _) :: rest =>
    match earliest rest with
    | None => Some t
    | Some t' => Some (Z.min t t')
    end
end.

(** The first event in registration order that fires at [t], and the
  schedule with that event moved one interval on. *)
Fixpoint pop (t : Z) (sch : list (E * Z * Z))
  : option (E * list (E * Z * Z)) :=
match sch with
| [] => None
| (e, t', i) :: rest =>
    if (t' =? t)%Z then Some (e, (e, (t' + i)%Z, i) :: rest)
    else
      match pop t rest with
      | None => None
      | Some (e', rest') => Some (e', (e, t', i) :: rest')
      end
end.

(** Modelled from the spec: one step of [iterate_until(stop)].  The
  generator itself only remembers the stop time. *)
Definition iter_until (stop : Z) : Z := stop.

Definition gen_next (stop : Z) (tl : Timeline) : GenStep E Z Timeline :=
match earliest (schedule tl) with
| None => StopIteration tl
| Some t =>
    if (t <=? stop)%Z then
      match pop t (schedule tl) with
      | None => StopIteration tl
      | Some (e, sch') => Yield e stop (mkTimeline t sch')
      end
    else StopIteration tl
end.

End SpecTimeline.
End SpecTimeline.

(** The manager over event objects and the timeline above. *)
Definition World : Type :=
  Sys EventObject Z Z (SpecTimeline.Timeline EventObject).

Local Abbreviation TL := (SpecTimeline.Timeline EventObject).
Local Abbreviation clock_of w := (SpecTimeline.clock (_timeline (self w))).

Definition new_manager (events : list (EventObject * Z)) : World :=
  mkSys (__init__ (@SpecTimeline.Timeline_new EventObject) events) [] [].

Definition do_initialize : World -> World * Res unit :=
  @initialize EventObject Z Z _ (SpecTimeline.Timeline EventObject).

Definition do_finalize : World -> World * Res unit :=
  @finalize EventObject Z Z _ (SpecTimeline.Timeline EventObject).

Definition do_run (fuel : nat) (stop_time : Z) : World -> World * Res unit :=
  @run EventObject Z Z _ (SpecTimeline.Timeline EventObject) Z
    (@SpecTimeline.tl_time EventObject)
    SpecTimeline.iter_until (@SpecTimeline.gen_next EventObject)
    fuel stop_time.

(** An event with every operation present and returning. *)
Definition plain (n : string) : EventObject :=
  mkEventObject n (Some Returns) (Some (fun _ => mkBody [] Returns))
    (Some (fun _ => mkBody [] Returns)) (Some Returns).

(** An event whose initialize operation raises. *)
Definition fails_initialize (n : string) (x : Exn) : EventObject :=
  mkEventObject n (Some (Raises x)) (Some (fun _ => mkBody [] Returns))
    (Some (fun _ => mkBody [] Returns)) (Some Returns).

(** An event whose finalize operation raises. *)
Definition fails_finalize (n : string) (x : Exn) : EventObject :=
  mkEventObject n (Some Returns) (Some (fun _ => mkBody [] Returns))
    (Some (fun _ => mkBody [] Returns)) (Some (Raises x)).

(** An event whose run operation raises. *)
Definition fails_run (n : string) (x : Exn) : EventObject :=
  mkEventObject n (Some Returns) (Some (fun _ => mkBody [] (Raises x)))
    (Some (fun _ => mkBody [] Returns)) (Some Returns).

(** An event without a [run] operation whose update operation raises. *)
Definition fails_update (n : string) (x : Exn) : EventObject :=
  mkEventObject n (Some Returns) None
    (Some (fun _ => mkBody [] (Raises x))) (Some Returns).

(** An event whose run operation is there but raises [AttributeError]
    from inside, and whose update operation returns. *)
Definition confused (n : string) : EventObject :=
  mkEventObject n (Some Returns)
    (Some (fun _ => mkBody [] (Raises AttributeError)))
    (Some (fun _ => mkBody [] Returns)) (Some Returns).

(** An event whose run operation calls [manager.run] twice, ten and
    twenty time units ahead, before it returns. *)
Definition nosy (n : string) : EventObject :=
  mkEventObject n (Some Returns)
    (Some (fun t => mkBody [(t + 10)%Z; (t + 20)%Z] Returns))
    None (Some Returns).

(** A manager caught in the middle of the loop of [run]. *)
Definition mid_run (events : list (EventObject * Z)) : World :=
  mkSys (mkEventManager (@SpecTimeline.Timeline_new EventObject events)
           true true true false events) [] [].

(** An event without a [run] operation. *)
Definition update_only (n : string) : EventObject :=
  mkEventObject n (Some Returns) None (Some (fun _ => mkBody [] Returns))
    (Some Returns).

(** ** Callers of the manager *)

(** The public methods, as a caller invokes them. *)
Inductive MCall (E Time Interval : Type) : Type :=
| CallInitialize
| CallRun (fuel : nat) (stop_time : Time)
| CallFinalize
| CallAddRecurringEvent (event : E) (interval : Interval).

Arguments CallInitialize {E Time Interval}.
Arguments CallRun {E Time Interval} fuel stop_time.
Arguments CallFinalize {E Time Interval}.
Arguments CallAddRecurringEvent {E Time Interval} event interval.

Definition is_initialize {Time : Type} (o : Op Time) : bool :=
  match o with
  | OpInitialize => true
  | _ => false
  end.

Definition is_lifecycle {Time : Type} (o : Op Time) : bool :=
  match o with
  | OpInitialize | OpFinalize => true
  | _ => false
  end.

Section Callers.

Variables E Time Interval : Type.
Context {EV : EventLike E Time}.
Variables Timeline Gen : Type.
Variable tl_time : Timeline -> Time.
Variable tl_add_recurring_event :
  E -> Interval -> Timeline -> Timeline * Res unit.
Variable iter_until : Time -> Gen.
Variable gen_next : Gen -> Timeline -> GenStep E Gen Timeline.

Definition call (c : MCall E Time Interval) : M E Time Interval Timeline unit :=
  match c with
  | CallInitialize => @initialize E Time Interval EV Timeline
  | CallRun fuel stop_time => run tl_time iter_until gen_next fuel stop_time
  | CallFinalize => @finalize E Time Interval EV Timeline
  | CallAddRecurringEvent event interval =>
      add_recurring_event tl_add_recurring_event event interval
  end.

(** A caller that makes one call after the other on the same manager and
    carries on whatever each call raises. *)
Fixpoint call_all (cs : list (MCall E Time Interval))
    (s : Sys E Time Interval Timeline) : Sys E Time Interval Timeline :=
  match cs with
  | [] => s
  | c :: cs' => call_all cs' (fst (call c s))
  end.

(** The statement [with manager: body].  [__enter__] is called first and
    the block is not entered when it raises; [__exit__] is called when
    the block is left, whether it returned or raised, and as it returns
    [None] an error of the block is raised again afterwards. *)
Definition with_block (body : M E Time Interval Timeline unit)
    : M E Time Interval Timeline unit :=
  fun s =>
    match @__enter__ E Time Interval EV Timeline s with
    | (s1, Ok _) =>
        match body s1 with
        | (s2, Ok _) => @__exit__ E Time Interval EV Timeline s2
        | (s2, Raise x) =>
            match @__exit__ E Time Interval EV Timeline s2 with
            | (s3, Ok _) => (s3, Raise x)
            | other => other
            end
        | (s2, OutOfFuel) => (s2, OutOfFuel)
        end
    | other => other
    end.

(** From [s] to [s'] only run and update operations were invoked and
    only the timeline and the running flag can have changed. *)
Definition only_dispatched (s s' : Sys E Time Interval Timeline) : Prop :=
  _order (self s') = _order (self s) /\
  _initializing (self s') = _initializing (self s) /\
  _initialized (self s') = _initialized (self s) /\
  _finalizing (self s') = _finalizing (self s) /\
  stdout s' = stdout s /\
  exists l, calls s' = calls s ++ l /\
            forallb (fun c => is_dispatch (snd c)) l = true.

(** A computation that, started with the initializing flag set, only
    dispatches. *)
Definition dispatches_only {A : Type} (m : M E Time Interval Timeline A)
    : Prop :=
  forall s, _initializing (self s) = true -> only_dispatched s (fst (m s)).

End Callers.

(** ** cmt.grids.esmp: the connectivity array *)

Section Connectivity.

Variable A : Type.

(** [a[lo:hi]] for indices that are not negative; the slice is clipped to
    the array. *)
Definition slice (lo hi : nat) (a : list A) : list A :=
  firstn (hi - lo) (skipn lo a).

(** [a[lo:hi] = v] in place, for [v] as long as the slice. *)
Definition set_slice (lo hi : nat) (v a : list A) : list A :=
  firstn lo a ++ v ++ skipn (lo + List.length (slice lo hi a)) a.

(** The loop of [reverse_element_ordering]: one pass over [self._offset],
    reversing [self._connectivity[last_offset:offset]] in place. *)
Fixpoint reverse_loop (offsets : list nat) (last_offset : nat)
    (connectivity : list A) : list A :=
  match offsets with
  | [] => connectivity
  | offset :: rest =>
      let c := slice last_offset offset connectivity in
      reverse_loop rest offset (set_slice last_offset offset (rev c) connectivity)
  end.

Definition reverse_element_ordering (offsets : list nat)
    (connectivity : list A) : list A :=
  reverse_loop offsets 0 connectivity.

(** The end offsets of cells laid out one after the other from
    [start]. *)
Fixpoint cell_ends (start : nat) (cells : list (list A)) : list nat :=
  match cells with
  | [] => []
  | c :: rest =>
      (start + List.length c) :: cell_ends (start + List.length c) rest
  end.

End Connectivity.

(** ** cmt.grids.esmp: fields on a grid *)

Inductive GridError : Type :=
| CenteringValueError (centering : string)
| DimensionError (have want : nat)
| KeyError (key : string)
| EsmpFailure (code : nat).

Inductive MeshLoc : Type :=
| ESMP_MESHLOC_NODE
| ESMP_MESHLOC_ELEMENT.

(** The attributes of an [EsmpField] that its methods use, together with
    the state of the ESMP library. *)
Record FieldStore (Field W : Type) : Type := mkFieldStore {
  _fields : string -> option Field;
  esmp : W
}.

Section Fields.

(** The ESMP library, the grid the field object is built on and
    [cmt.grids.igrid.centering_choices] are not among the sources.  An
    array is given by its flattened contents, so that its [size] is the
    length of that list. *)
Variables Mesh Field Ptr V W : Type.
Variable centering_choices : list string.
Variable get_cell_count get_point_count : nat.
Variable _mesh : Mesh.
Variable ESMP_FieldCreate :
  Mesh -> string -> MeshLoc -> W -> W * (GridError + Field).
Variable ESMP_FieldGetPtr : Field -> nat -> W -> W * (GridError + Ptr).
Variable flat_assign : Ptr -> list V -> W -> W * (GridError + unit).

Local Abbreviation Store := (FieldStore Field W).

(** [EsmpField.__init__]: [self._fields = {}]. *)
Definition no_fields (w : W) : Store := mkFieldStore (fun _ => None) w.

Definition set_esmp (w : W) (st : Store) : Store :=
  mkFieldStore (_fields st) w.

(** [self._fields[field_name] = field] *)
Definition set_field (field_name : string) (field : Field) (st : Store)
    : Store :=
  mkFieldStore
    (fun k => if String.eqb k field_name then Some field else _fields st k)
    (esmp st).

Definition add_field (field_name : string) (val : list V)
    (centering : string) (st : Store) : Store * (GridError + unit) :=
  if negb (existsb (String.eqb centering) centering_choices) then
    (st, inl (CenteringValueError centering))
  else if String.eqb centering "zonal"
          && negb (Nat.eqb (List.length val) get_cell_count) then
    (st, inl (DimensionError (List.length val) get_cell_count))
  else if negb (String.eqb centering "zonal")
          && negb (Nat.eqb (List.length val) get_point_count) then
    (st, inl (DimensionError (List.length val) get_point_count))
  else
    let meshloc :=
      if String.eqb centering "zonal" then ESMP_MESHLOC_ELEMENT
      else ESMP_MESHLOC_NODE in
    match ESMP_FieldCreate _mesh field_name meshloc (esmp st) with
    | (w1, inl err) => (set_esmp w1 st, inl err)
    | (w1, inr field) =>
        match ESMP_FieldGetPtr field 0 w1 with
        | (w2, inl err) => (set_esmp w2 st, inl err)
        | (w2, inr field_ptr) =>
            match flat_assign field_ptr val w2 with
            | (w3, inl err) => (set_esmp w3 st, inl err)
            | (w3, inr _) =>
                (set_field field_name field (set_esmp w3 st), inr tt)
            end
        end
    end.

Definition get_field (field_name : string) (st : Store)
    : Store * (GridError + Ptr) :=
  match _fields st field_name with
  | None => (st, inl (KeyError field_name))
  | Some field =>
      match ESMP_FieldGetPtr field 0 (esmp st) with
      | (w1, r) => (set_esmp w1 st, r)
      end
  end.

Definition as_esmp (field_name : string) (st : Store) : GridError + Field :=
  match _fields st field_name with
  | None => inl (KeyError field_name)
  | Some field => inr field
  end.

End Fields.

(** ** Concrete callers, configurations and fields *)

Definition do_calls (cs : list (MCall EventObject Z Z)) (w : World) : World :=
  @call_all EventObject Z Z _ TL Z (@SpecTimeline.tl_time EventObject)
    (@SpecTimeline.tl_add_recurring_event EventObject)
    SpecTimeline.iter_until (@SpecTimeline.gen_next EventObject) cs w.

Definition do_with (body : World -> World * Res unit)
    : World -> World * Res unit :=
  @with_block EventObject Z Z _ TL body.

(** A configuration as a list of sections, each a list of options. *)
Definition SimpleConfig : Type := list (string * list (string * string)).

Definition simple_sections (config : SimpleConfig) : list string :=
  map fst config.

Fixpoint simple_lookup {B : Type} (key : string) (l : list (string * B))
    : option B :=
  match l with
  | [] => None
  | (k, v) :: rest => if String.eqb k key then Some v else simple_lookup key rest
  end.

Definition simple_get (config : SimpleConfig) (section option : string)
    : Res string :=
  match simple_lookup section config with
  | None => Raise (ConfigError "NoSectionError")
  | Some options =>
      match simple_lookup option options with
      | None => Raise (ConfigError "NoOptionError")
      | Some v => Ok v
      end
  end.

(** Modelled from the spec: [names_with_prefix] ([cmt.utils.prefix] is not
    among the sources) keeps the names that match the prefix, in their
    order. *)
Definition simple_names_with_prefix (names : list string) (prefix : string)
    : list string :=
  filter (String.prefix prefix) names.

Definition simple_from_config (config : SimpleConfig) (prefix : string)
    : Res (EventManager string string (SpecTimeline.Timeline string)) :=
  _from_config simple_sections simple_get simple_names_with_prefix
    (fun events => SpecTimeline.mkTimeline 0
       (map (fun entry => (fst entry, 0%Z, 0%Z)) events))
    config prefix.

(** The grid of the module's docstring: two cells and six points, with a
    stand-in for ESMP whose fields are a name and a mesh location. *)
Definition simple_add_field (field_name : string) (val : list Z)
    (centering : string) (st : FieldStore (string * MeshLoc) unit)
    : FieldStore (string * MeshLoc) unit * (GridError + unit) :=
  @add_field unit (string * MeshLoc) unit Z unit ["zonal"; "point"] 2 6 tt
    (fun _ n loc w => (w, inr (n, loc)))
    (fun _ _ w => (w, inr tt))
    (fun _ _ w => (w, inr tt))
    field_name val centering st.

(** * Facts *)

Unset Implicit Arguments.

Lemma sys_eta_gen (E Time Interval Timeline : Type)
    (s : Sys E Time Interval Timeline) :
  mkSys (self s) (calls s) (stdout s) = s.
Proof. destruct s; reflexivity. Qed.

(** Closes a goal that equates two results up to the shape of the log. *)
Ltac tidy :=
  unfold raise, ret; cbn;
  repeat match goal with
         | |- context [?l ++ []] => rewrite (app_nil_r l)
         | |- context [(?a ++ ?b) ++ ?c] => rewrite <- (app_assoc a b c)
         | |- context [mkSys (self ?s) (calls ?s) (stdout ?s)] =>
             rewrite (sys_eta_gen _ _ _ _ s)
         end;
  try reflexivity.

(** ** The two walks over the registration list *)

Section LifecycleFacts.

Variables E Time Interval : Type.
Context {EV : EventLike E Time}.
Variable Timeline : Type.

Local Abbreviation System := (Sys E Time Interval Timeline).
Local Abbreviation init_step :=
  (@initialize_entry E Time Interval EV Timeline).
Local Abbreviation fin_step :=
  (fun entry : E * Interval =>
     @call_finalize E Time Interval EV Timeline (fst entry)).

Lemma for_each_app (A : Type) (l1 l2 : list A)
    (body : A -> M E Time Interval Timeline unit) (s : System) :
  for_each (l1 ++ l2) body s =
  bind (for_each l1 body) (fun _ => for_each l2 body) s.
Proof.
  revert s; induction l1 as [|a l1 IH]; intro s; simpl.
  - reflexivity.
  - unfold bind in *. destruct (body a s) as [s1 [[]| |]]; auto.
Qed.

(** A walk in which every initialize operation returns invokes each of
    them, in order, and touches nothing else. *)
Lemma init_walk_ok (l : list (E * Interval)) :
  (forall entry, In entry l -> ev_initialize (fst entry) = Some Returns) ->
  forall s : System,
    for_each l init_step s =
    (mkSys (self s) (calls s ++ init_calls l) (stdout s), Ok tt).
Proof.
  induction l as [|a l IH]; intros Hok s; simpl.
  - unfold ret, init_calls; simpl. now rewrite app_nil_r, sys_eta_gen.
  - unfold bind, initialize_entry, try_except, call_initialize.
    rewrite (Hok a (or_introl eq_refl)). cbn.
    rewrite IH by (intros; apply Hok; now right).
    cbn. now rewrite <- app_assoc.
Qed.

(** The entry whose initialize operation raises ends the walk; the
    handler prints its report when the error is an [Exception]. *)
Lemma init_step_fail (entry : E * Interval) (x : Exn) (s : System) :
  ev_initialize (fst entry) = Some (Raises x) ->
  init_step entry s =
  (mkSys (self s) (calls s ++ [(fst entry, OpInitialize)])
     (stdout s ++
        if isinstance_Exception x
        then [PStr "error initializing"; PEvent (fst entry)] else []),
   Raise x).
Proof.
  intro Hx. unfold initialize_entry, try_except, call_initialize.
  rewrite Hx. cbn. destruct (isinstance_Exception x); cbn.
  - now rewrite <- app_assoc.
  - now rewrite app_nil_r.
Qed.

Lemma init_walk_fail (pre post : list (E * Interval)) (entry : E * Interval)
    (x : Exn) (s : System) :
  (forall p, In p pre -> ev_initialize (fst p) = Some Returns) ->
  ev_initialize (fst entry) = Some (Raises x) ->
  for_each (pre ++ entry :: post) init_step s =
  (mkSys (self s) (calls s ++ init_calls (pre ++ [entry]))
     (stdout s ++
        if isinstance_Exception x
        then [PStr "error initializing"; PEvent (fst entry)] else []),
   Raise x).
Proof.
  intros Hpre Hx. rewrite for_each_app. unfold bind.
  rewrite (init_walk_ok _ Hpre). simpl for_each. unfold bind.
  rewrite (init_step_fail _ _ _ Hx). cbn.
  unfold init_calls. rewrite map_app, app_assoc. reflexivity.
Qed.

(** However the walk ends, the manager object is as it was. *)
Lemma init_walk_self (l : list (E * Interval)) (s : System) :
  self (fst (for_each l init_step s)) = self s.
Proof.
  revert s; induction l as [|a l IH]; intro s; simpl; [reflexivity|].
  unfold bind.
  assert (Hstep : self (fst (init_step a s)) = self s).
  { unfold initialize_entry, try_except, call_initialize.
    destruct (ev_initialize (fst a)) as [[|x]|]; cbn; try reflexivity.
    destruct (isinstance_Exception x); reflexivity. }
  destruct (init_step a s) as [s1 [[]| |]]; simpl in *; try assumption.
  now rewrite IH.
Qed.

(** The walk only ever adds initialize invocations. *)
Lemma init_walk_calls (l : list (E * Interval)) (s : System) :
  exists k, calls (fst (for_each l init_step s)) =
            calls s ++ init_calls (firstn k l).
Proof.
  revert s; induction l as [|a l IH]; intro s; simpl.
  - exists 0%nat. simpl. now rewrite app_nil_r.
  - unfold bind.
    assert (Hstep :
      (init_step a s = (mkSys (self s) (calls s ++ [(fst a, OpInitialize)])
                          (stdout s), Ok tt)) \/
      (exists s1 x, init_step a s = (s1, Raise x) /\
         (calls s1 = calls s \/
          calls s1 = calls s ++ [(fst a, OpInitialize)]))).
    { unfold initialize_entry, try_except, call_initialize.
      destruct (ev_initialize (fst a)) as [[|x]|]; cbn.
      - now left.
      - right. destruct (isinstance_Exception x); cbn;
          eexists; eexists; (split; [reflexivity|now right]).
      - right. eexists; eexists; (split; [reflexivity|now left]). }
    destruct Hstep as [Hs | (s1 & x & Hs & [Hc | Hc])]; rewrite Hs.
    + destruct (IH (mkSys (self s) (calls s ++ [(fst a, OpInitialize)])
                      (stdout s))) as [k Hk].
      exists (S k). rewrite Hk. cbn. now rewrite <- app_assoc.
    + exists 0%nat. simpl. now rewrite app_nil_r.
    + exists 1%nat. simpl. assumption.
Qed.

Lemma fin_walk_ok (l : list (E * Interval)) :
  (forall entry, In entry l -> ev_finalize (fst entry) = Some Returns) ->
  forall s : System,
    for_each l fin_step s =
    (mkSys (self s) (calls s ++ finalize_calls l) (stdout s), Ok tt).
Proof.
  induction l as [|a l IH]; intros Hok s; simpl.
  - unfold ret, finalize_calls; simpl. now rewrite app_nil_r, sys_eta_gen.
  - unfold bind, call_finalize.
    rewrite (Hok a (or_introl eq_refl)). cbn.
    rewrite IH by (intros; apply Hok; now right).
    cbn. now rewrite <- app_assoc.
Qed.

Lemma fin_walk_fail (pre post : list (E * Interval)) (entry : E * Interval)
    (x : Exn) (s : System) :
  (forall p, In p pre -> ev_finalize (fst p) = Some Returns) ->
  ev_finalize (fst entry) = Some (Raises x) ->
  for_each (pre ++ entry :: post) fin_step s =
  (mkSys (self s) (calls s ++ finalize_calls (pre ++ [entry])) (stdout s),
   Raise x).
Proof.
  intros Hpre Hx. rewrite for_each_app. unfold bind.
  rewrite (fin_walk_ok _ Hpre). simpl for_each. unfold bind, call_finalize.
  rewrite Hx. cbn.
  unfold finalize_calls. rewrite map_app, app_assoc. reflexivity.
Qed.

(** *** [initialize] *)

Lemma initialize_idle (s : System) :
  _initializing (self s) = true -> initialize s = (s, Ok tt).
Proof.
  intro H. unfold initialize, bind, gets. rewrite H. reflexivity.
Qed.

Lemma initialize_ok (s : System) :
  _initializing (self s) = false ->
  (forall entry, In entry (_order (self s)) ->
     ev_initialize (fst entry) = Some Returns) ->
  initialize s =
  (mkSys (set_initialized true (set_initializing true (self s)))
     (calls s ++ init_calls (_order (self s))) (stdout s),
   Ok tt).
Proof.
  intros H Hok. unfold initialize, bind, gets. rewrite H. cbn.
  rewrite init_walk_ok by assumption. reflexivity.
Qed.

Lemma initialize_fail (s : System) (pre post : list (E * Interval))
    (entry : E * Interval) (x : Exn) :
  _initializing (self s) = false ->
  _order (self s) = pre ++ entry :: post ->
  (forall p, In p pre -> ev_initialize (fst p) = Some Returns) ->
  ev_initialize (fst entry) = Some (Raises x) ->
  initialize s =
  (mkSys (set_initializing true (self s))
     (calls s ++ init_calls (pre ++ [entry]))
     (stdout s ++
        if isinstance_Exception x
        then [PStr "error initializing"; PEvent (fst entry)] else []),
   Raise x).
Proof.
  intros H Ho Hpre Hx. unfold initialize, bind, gets. rewrite H. cbn.
  rewrite Ho, (init_walk_fail _ _ _ _ _ Hpre Hx). reflexivity.
Qed.

(** Whatever [initialize] does, it leaves the initializing flag set and
    the timeline, the running and finalizing flags and the registration
    list alone, and it invokes nothing but initialize operations. *)
Lemma initialize_frame (s : System) :
  let s' := fst (initialize s) in
  _initializing (self s') = true /\
  _timeline (self s') = _timeline (self s) /\
  _running (self s') = _running (self s) /\
  _finalizing (self s') = _finalizing (self s) /\
  _order (self s') = _order (self s) /\
  exists k, calls s' = calls s ++ init_calls (firstn k (_order (self s))).
Proof.
  unfold initialize, bind, gets.
  destruct (_initializing (self s)) eqn:H; cbn.
  - repeat split; auto. exists 0%nat. simpl. now rewrite app_nil_r.
  - set (s0 := mkSys (set_initializing true (self s)) (calls s) (stdout s)).
    pose proof (init_walk_self (_order (self s)) s0) as Hself.
    destruct (init_walk_calls (_order (self s)) s0) as [k Hk].
    destruct (for_each (_order (self s)) init_step s0) as [s1 [[]| |]];
      simpl in *; rewrite ?Hself; repeat split; auto; now exists k.
Qed.

(** A call of [initialize] that found the initializing flag clear and
    returned has set the initialized flag. *)
Lemma initialize_returned (s s1 : System) :
  _initializing (self s) = false ->
  initialize s = (s1, Ok tt) ->
  _initialized (self s1) = true /\
  _initializing (self s1) = true /\
  _finalizing (self s1) = _finalizing (self s) /\
  _order (self s1) = _order (self s).
Proof.
  intros H. unfold initialize, bind, gets. rewrite H. cbn.
  set (s0 := mkSys (set_initializing true (self s)) (calls s) (stdout s)).
  pose proof (init_walk_self (_order (self s)) s0) as Hself.
  destruct (for_each (_order (self s)) init_step s0) as [s2 [[]| |]];
    simpl in *; try discriminate.
  intro Heq. injection Heq as <-. simpl. rewrite Hself. auto.
Qed.

(** *** [finalize] *)

Lemma finalize_idle (s : System) :
  _initialized (self s) = false -> finalize s = (s, Ok tt).
Proof.
  intro H. unfold finalize, bind, gets. rewrite H. reflexivity.
Qed.

Lemma finalize_ok (s : System) :
  _initialized (self s) = true ->
  _finalizing (self s) = false ->
  (forall entry, In entry (_order (self s)) ->
     ev_finalize (fst entry) = Some Returns) ->
  finalize s =
  (mkSys (set_initialized false (set_finalizing true (self s)))
     (calls s ++ finalize_calls (rev (_order (self s)))) (stdout s),
   Ok tt).
Proof.
  intros Hi Hf Hok. unfold finalize, bind, gets. rewrite Hi, Hf. cbn.
  rewrite fin_walk_ok by (intros p Hp; apply Hok; now apply in_rev).
  reflexivity.
Qed.

Lemma finalize_fail (s : System) (pre post : list (E * Interval))
    (entry : E * Interval) (x : Exn) :
  _initialized (self s) = true ->
  _finalizing (self s) = false ->
  _order (self s) = pre ++ entry :: post ->
  (forall p, In p post -> ev_finalize (fst p) = Some Returns) ->
  ev_finalize (fst entry) = Some (Raises x) ->
  finalize s =
  (mkSys (set_finalizing true (self s))
     (calls s ++ finalize_calls (rev post ++ [entry])) (stdout s),
   Raise x).
Proof.
  intros Hi Hf Ho Hpost Hx. unfold finalize, bind, gets.
  rewrite Hi, Hf. cbn. rewrite Ho, rev_app_distr. simpl rev.
  rewrite <- app_assoc. simpl app.
  rewrite (fin_walk_fail (rev post) (rev pre) entry x); auto.
  intros p Hp. apply Hpost. now apply in_rev.
Qed.

(** With the finalizing flag already set, [finalize] on an initialized
    manager walks nothing and still clears the initialized flag. *)
Lemma finalize_again (s : System) :
  _initialized (self s) = true ->
  _finalizing (self s) = true ->
  finalize s =
  (mkSys (set_initialized false (self s)) (calls s) (stdout s), Ok tt).
Proof.
  intros Hi Hf. unfold finalize, bind, gets. rewrite Hi, Hf. reflexivity.
Qed.

(** *** The lifecycle claims *)

(** C1.  On a manager that has not begun to initialize and whose events'
    initialize operations all return, [initialize()] returns, has
    invoked the initialize operation of every registration entry once,
    in registration order, and has set both the initializing and the
    initialized flag. *)
Theorem initialize_in_registration_order (s : System) :
  _initializing (self s) = false ->
  (forall entry, In entry (_order (self s)) ->
     ev_initialize (fst entry) = Some Returns) ->
  let s' := fst (initialize s) in
  snd (initialize s) = Ok tt /\
  calls s' = calls s ++ init_calls (_order (self s)) /\
  _initializing (self s') = true /\
  _initialized (self s') = true /\
  _order (self s') = _order (self s).
Proof.
  intros H Hok. rewrite (initialize_ok s H Hok). cbn. auto.
Qed.

(** C2.  After an [initialize()] that ran and returned, and with every
    finalize operation returning, [finalize()] returns, has invoked the
    finalize operation of every registration entry once, in the reverse
    of registration order, and has cleared the initialized flag; on a
    manager whose initialized flag is clear, [finalize()] returns
    without invoking or changing anything. *)
Theorem finalize_in_reverse_order :
  (forall s0 s1 : System,
     _initializing (self s0) = false ->
     _finalizing (self s0) = false ->
     initialize s0 = (s1, Ok tt) ->
     (forall entry, In entry (_order (self s0)) ->
        ev_finalize (fst entry) = Some Returns) ->
     let s2 := fst (finalize s1) in
     snd (finalize s1) = Ok tt /\
     calls s2 = calls s1 ++ finalize_calls (rev (_order (self s0))) /\
     _initialized (self s2) = false) /\
  (forall s : System,
     _initialized (self s) = false -> finalize s = (s, Ok tt)).
Proof.
  split.
  - intros s0 s1 Hi Hf Hinit Hok.
    destruct (initialize_returned s0 s1 Hi Hinit) as (Hd & _ & Hf1 & Ho).
    rewrite Hf in Hf1. rewrite <- Ho in Hok.
    rewrite (finalize_ok s1 Hd Hf1 Hok). cbn. rewrite Ho. auto.
  - apply finalize_idle.
Qed.

(** C4.  When the initialize operation of the entry at some position of
    the registration list raises and those before it return,
    [initialize()] raises that very error, has invoked the initialize
    operations of the entries up to and including that position and of
    none after it, has printed a report naming the failing event (when
    the error is an [Exception]), and leaves the initializing flag set
    and the initialized flag clear, so that calling [initialize()] again
    does nothing. *)
Theorem initialize_failure_is_stuck (s : System)
    (pre post : list (E * Interval)) (entry : E * Interval) (x : Exn) :
  _initializing (self s) = false ->
  _initialized (self s) = false ->
  _order (self s) = pre ++ entry :: post ->
  (forall p, In p pre -> ev_initialize (fst p) = Some Returns) ->
  ev_initialize (fst entry) = Some (Raises x) ->
  let s' := fst (initialize s) in
  snd (initialize s) = Raise x /\
  calls s' = calls s ++ init_calls pre ++ [(fst entry, OpInitialize)] /\
  (isinstance_Exception x = true ->
   stdout s' = stdout s ++ [PStr "error initializing"; PEvent (fst entry)]) /\
  _initializing (self s') = true /\
  _initialized (self s') = false /\
  initialize s' = (s', Ok tt).
Proof.
  intros Hi Hd Ho Hpre Hx.
  rewrite (initialize_fail s pre post entry x Hi Ho Hpre Hx). cbn.
  repeat split; auto.
  - unfold init_calls. now rewrite map_app.
  - intros ->. reflexivity.
Qed.

(** C7.  With every initialize and finalize operation returning, a
    second [initialize()] right after the first invokes nothing, so the
    two calls together invoke each initialize operation once; and a
    second [finalize()] right after the first invokes nothing, so the
    two calls together invoke each finalize operation once. *)
Theorem lifecycle_calls_are_idempotent (s : System) :
  _initializing (self s) = false ->
  _finalizing (self s) = false ->
  (forall entry, In entry (_order (self s)) ->
     ev_initialize (fst entry) = Some Returns) ->
  (forall entry, In entry (_order (self s)) ->
     ev_finalize (fst entry) = Some Returns) ->
  let s1 := fst (initialize s) in
  let s2 := fst (initialize s1) in
  let s3 := fst (finalize s2) in
  let s4 := fst (finalize s3) in
  snd (initialize s) = Ok tt /\ snd (initialize s1) = Ok tt /\
  calls s2 = calls s ++ init_calls (_order (self s)) /\
  snd (finalize s2) = Ok tt /\ snd (finalize s3) = Ok tt /\
  calls s4 = calls s2 ++ finalize_calls (rev (_order (self s))).
Proof.
  intros Hi Hf Hok Hfin.
  rewrite (initialize_ok s Hi Hok). cbn [fst snd].
  rewrite initialize_idle by reflexivity. cbn [fst snd].
  rewrite finalize_ok by (try reflexivity; assumption). cbn [fst snd].
  rewrite finalize_idle by reflexivity. cbn. auto 10.
Qed.

(** C8.  On an initialized manager that has not begun to finalize, when
    the finalize operation of some entry raises and those of the entries
    registered after it return, [finalize()] raises that error, has
    invoked the finalize operations of the later entries (last first)
    and of the failing one and of none registered before it, and leaves
    the initialized flag set. *)
Theorem finalize_failure_keeps_initialized (s : System)
    (pre post : list (E * Interval)) (entry : E * Interval) (x : Exn) :
  _initialized (self s) = true ->
  _finalizing (self s) = false ->
  _order (self s) = pre ++ entry :: post ->
  (forall p, In p post -> ev_finalize (fst p) = Some Returns) ->
  ev_finalize (fst entry) = Some (Raises x) ->
  let s' := fst (finalize s) in
  snd (finalize s) = Raise x /\
  calls s' =
    calls s ++ finalize_calls (rev post) ++ [(fst entry, OpFinalize)] /\
  _initialized (self s') = true.
Proof.
  intros Hi Hf Ho Hpost Hx.
  rewrite (finalize_fail s pre post entry x Hi Hf Ho Hpost Hx). cbn.
  repeat split; auto.
  unfold finalize_calls. now rewrite map_app.
Qed.

(** C10.  After such a failed [finalize()] the finalizing flag is set,
    and a second [finalize()] returns having invoked no operation at
    all, yet with the initialized flag cleared: the entries the failed
    call never reached are never finalized. *)
Theorem second_finalize_skips_the_walk (s : System)
    (pre post : list (E * Interval)) (entry : E * Interval) (x : Exn) :
  _initialized (self s) = true ->
  _finalizing (self s) = false ->
  _order (self s) = pre ++ entry :: post ->
  (forall p, In p post -> ev_finalize (fst p) = Some Returns) ->
  ev_finalize (fst entry) = Some (Raises x) ->
  let s1 := fst (finalize s) in
  let s2 := fst (finalize s1) in
  snd (finalize s) = Raise x /\
  _finalizing (self s1) = true /\
  snd (finalize s1) = Ok tt /\
  calls s2 = calls s1 /\
  calls s2 =
    calls s ++ finalize_calls (rev post) ++ [(fst entry, OpFinalize)] /\
  _initialized (self s2) = false.
Proof.
  intros Hi Hf Ho Hpost Hx.
  rewrite (finalize_fail s pre post entry x Hi Hf Ho Hpost Hx).
  cbn [fst snd].
  rewrite finalize_again by (cbn; assumption || reflexivity). cbn.
  repeat split; auto.
  unfold finalize_calls. now rewrite map_app.
Qed.

End LifecycleFacts.

(** ** Running *)

Section RunFacts.

Variables E Time Interval : Type.
Context {EV : EventLike E Time}.
Variables Timeline Gen : Type.
Variable tl_time : Timeline -> Time.
Variable iter_until : Time -> Gen.
Variable gen_next : Gen -> Timeline -> GenStep E Gen Timeline.

Local Abbreviation System := (Sys E Time Interval Timeline).
Local Abbreviation run_with ev :=
  (@run E Time Interval ev Timeline Gen tl_time iter_until gen_next).
Local Abbreviation loop_with ev :=
  (@run_loop E Time Interval ev Timeline Gen tl_time gen_next).
Local Abbreviation run' := (run_with EV).
Local Abbreviation time_at s := (tl_time (_timeline (self s))).
Local Abbreviation yields' := (@yields E Timeline Gen gen_next).
Local Abbreviation due_calls' := (@due_calls E Time EV Timeline tl_time).
Local Abbreviation benign' := (@benign E Time EV Timeline tl_time).

Lemma set_timeline_same (m : EventManager E Interval Timeline) :
  set_timeline (_timeline m) m = m.
Proof. destruct m; reflexivity. Qed.

(** *** The reentrancy guard *)

(** With the running flag set, [run] is its call of [initialize] and
    nothing more. *)
Lemma run_guarded (d : nat) (stop : Time) (s : System) :
  _running (self s) = true -> run' (S d) stop s = initialize s.
Proof.
  intro Hr. simpl. unfold run_body, bind at 1.
  destruct (initialize_frame _ _ _ _ s) as (_ & _ & Hrun & _).
  destruct (initialize s) as [s1 [[]| |]]; simpl in *; try reflexivity.
  unfold bind, gets. rewrite Hrun, Hr. reflexivity.
Qed.

Lemma run_idle (d : nat) (stop : Time) (s : System) :
  dispatching s -> run' (S d) stop s = (s, Ok tt).
Proof.
  intros [Hr Hi]. rewrite run_guarded by assumption.
  now apply initialize_idle.
Qed.

(** *** One step of the loop *)

Lemma run_loop_yield (ev : EventLike E Time)
    (rec : Time -> M E Time Interval Timeline unit) (k : nat) (g : Gen)
    (s : System) (e : E) (g1 : Gen) (tl1 : Timeline) :
  gen_next g (_timeline (self s)) = Yield e g1 tl1 ->
  loop_with ev rec (S k) g s =
  match @dispatch E Time Interval ev Timeline tl_time rec e
          (mkSys (set_timeline tl1 (self s)) (calls s) (stdout s)) with
  | (s', Ok _) => loop_with ev rec k g1 s'
  | (s', Raise x) => (s', Raise x)
  | (s', OutOfFuel) => (s', OutOfFuel)
  end.
Proof.
  intro H. cbn [run_loop]. unfold bind at 1, gets. rewrite H. reflexivity.
Qed.

Lemma run_loop_stop (ev : EventLike E Time)
    (rec : Time -> M E Time Interval Timeline unit) (k : nat) (g : Gen)
    (s : System) (tl1 : Timeline) :
  gen_next g (_timeline (self s)) = StopIteration tl1 ->
  loop_with ev rec (S k) g s =
  (mkSys (set_timeline tl1 (self s)) (calls s) (stdout s), Ok tt).
Proof.
  intro H. cbn [run_loop]. unfold bind at 1, gets. rewrite H. reflexivity.
Qed.

Lemma run_loop_raise (ev : EventLike E Time)
    (rec : Time -> M E Time Interval Timeline unit) (k : nat) (g : Gen)
    (s : System) (x : Exn) (tl1 : Timeline) :
  gen_next g (_timeline (self s)) = GenRaise x tl1 ->
  loop_with ev rec (S k) g s =
  (mkSys (set_timeline tl1 (self s)) (calls s) (stdout s), Raise x).
Proof.
  intro H. cbn [run_loop]. unfold bind at 1, gets. rewrite H. reflexivity.
Qed.

(** *** Dispatching with a guarded [run] behind the events

    The loop is studied for any [rec] that, like [run], does nothing
    while the manager is dispatching. *)
Section Loop.

Variable rec : Time -> M E Time Interval Timeline unit.
Hypothesis rec_idle :
  forall (t : Time) (s : System), dispatching s -> rec t s = (s, Ok tt).

Lemma reentry_idle (l : list Time) (s : System) :
  dispatching s -> for_each l rec s = (s, Ok tt).
Proof.
  intro Hs. induction l as [|t l IH]; cbn [for_each]; [reflexivity|].
  unfold bind. now rewrite rec_idle.
Qed.

(** An operation body run while the manager is dispatching: the calls
    of [manager.run] it makes leave everything as it is. *)
Lemma exec_body_dispatching (b : Body Time) (s : System) :
  dispatching s -> exec_body rec b s = (s, res_of (outcome b)).
Proof.
  intro Hs. unfold exec_body, bind. rewrite reentry_idle by assumption.
  destruct (outcome b); reflexivity.
Qed.

Lemma dispatch_spec (e : E) (s : System) :
  dispatching s ->
  dispatch tl_time rec e s =
  (mkSys (self s) (calls s ++ dispatch_calls e (time_at s)) (stdout s),
   res_of (dispatch_outcome e (time_at s))).
Proof.
  intro Hs.
  assert (Hlog : forall c : list (E * Op Time),
            dispatching (mkSys (self s) c (stdout s)))
    by (intro c; exact Hs).
  unfold dispatch, try_except, call_run, call_update, dispatch_calls,
    dispatch_outcome, falls_back, update_calls, update_outcome.
  destruct (ev_run e) as [body|]; unfold bind, gets, log;
    cbn [self calls stdout].
  - rewrite exec_body_dispatching by apply Hlog.
    destruct (outcome (body (time_at s))) as [|x]; cbn [res_of].
    + now rewrite app_nil_r.
    + destruct (isinstance_AttributeError x).
      * destruct (ev_update e) as [body'|]; cbn [self calls stdout].
        -- rewrite exec_body_dispatching by apply Hlog.
           now rewrite <- app_assoc.
        -- reflexivity.
      * now rewrite app_nil_r.
  - unfold raise. destruct (ev_update e) as [body'|];
      cbn [self calls stdout].
    + now rewrite exec_body_dispatching by apply Hlog.
    + now rewrite app_nil_r, sys_eta_gen.
Qed.

(** The same dispatch for events that never call back. *)
Lemma dispatch_without_reentry
    (rec' : Time -> M E Time Interval Timeline unit) (e : E) (s : System) :
  @dispatch E Time Interval (without_reentry EV) Timeline tl_time rec' e s =
  (mkSys (self s) (calls s ++ dispatch_calls e (time_at s)) (stdout s),
   res_of (dispatch_outcome e (time_at s))).
Proof.
  unfold dispatch, try_except, call_run, call_update, dispatch_calls,
    dispatch_outcome, falls_back, update_calls, update_outcome.
  cbn [ev_run ev_update without_reentry].
  destruct (ev_run e) as [body|]; cbn.
  - destruct (outcome (body (time_at s))) as [|x]; cbn; [tidy|].
    destruct (isinstance_AttributeError x); cbn; [|tidy].
    destruct (ev_update e) as [body'|]; cbn; [|tidy].
    destruct (outcome (body' (time_at s))); tidy.
  - destruct (ev_update e) as [body'|]; cbn; [|tidy].
    destruct (outcome (body' (time_at s))); tidy.
Qed.

(** Calls of [manager.run] from inside event operations make no
    difference to the loop. *)
Lemma run_loop_without_reentry
    (rec' : Time -> M E Time Interval Timeline unit)
    (k : nat) (g : Gen) (s : System) :
  dispatching s ->
  loop_with EV rec k g s = loop_with (without_reentry EV) rec' k g s.
Proof.
  revert g s. induction k as [|k IH]; intros g s Hs; [reflexivity|].
  destruct (gen_next g (_timeline (self s))) as [e g1 tl1|tl1|x tl1] eqn:Hg.
  - rewrite !(run_loop_yield _ _ _ _ _ _ _ _ Hg).
    rewrite dispatch_spec by exact Hs.
    rewrite dispatch_without_reentry.
    destruct (dispatch_outcome e _); cbn [res_of]; [|reflexivity].
    apply IH. exact Hs.
  - now rewrite !(run_loop_stop _ _ _ _ _ _ Hg).
  - now rewrite !(run_loop_raise _ _ _ _ _ _ _ Hg).
Qed.

(** The loop along the due occurrences. *)
Lemma run_loop_prefix (g : Gen) (tl : Timeline)
    (evs : list (E * Timeline)) (g' : Gen) (tl' : Timeline) :
  yields' g tl evs g' tl' ->
  benign' evs ->
  forall (k : nat) (s : System),
    dispatching s ->
    _timeline (self s) = tl ->
    loop_with EV rec (List.length evs + k) g s =
    loop_with EV rec k g'
      (mkSys (set_timeline tl' (self s)) (calls s ++ due_calls' evs)
         (stdout s)).
Proof.
  induction 1 as [g tl | g tl e g1 tl1 evs g' tl' Hstep Hrest IH];
    intros Hben k s Hs Htl.
  - cbn [List.length Nat.add]. unfold due_calls. cbn [flat_map].
    rewrite <- Htl, set_timeline_same, app_nil_r, sys_eta_gen.
    reflexivity.
  - cbn [List.length Nat.add]. rewrite <- Htl in Hstep.
    rewrite (run_loop_yield _ _ _ _ _ _ _ _ Hstep).
    rewrite dispatch_spec by exact Hs.
    cbn [self calls stdout set_timeline _timeline].
    pose proof (Hben (e, tl1) (or_introl eq_refl)) as He.
    cbn [fst snd] in He. rewrite He. cbn [res_of].
    rewrite IH.
    + unfold due_calls. tidy.
    + intros occ Hocc. apply Hben. now right.
    + exact Hs.
    + reflexivity.
Qed.

End Loop.

(** *** A whole call of [run] *)

Lemma run_unfold (ev : EventLike E Time) (d : nat) (stop : Time)
    (s : System) :
  run_with ev (S d) stop s =
  match @initialize E Time Interval ev Timeline s with
  | (s1, Ok _) =>
      if _running (self s1) then (s1, Ok tt)
      else
        match loop_with ev (run_with ev d) (S d) (iter_until stop)
                (mkSys (set_running true (self s1)) (calls s1) (stdout s1))
        with
        | (s', Ok _) =>
            (mkSys (set_running false (self s')) (calls s') (stdout s'),
             Ok tt)
        | (s', Raise x) => (s', Raise x)
        | (s', OutOfFuel) => (s', OutOfFuel)
        end
  | (s1, Raise x) => (s1, Raise x)
  | (s1, OutOfFuel) => (s1, OutOfFuel)
  end.
Proof.
  cbn [run]. unfold run_body. unfold bind at 1.
  destruct (initialize s) as [s1 [[]| |]]; try reflexivity.
  unfold bind at 1, gets. destruct (_running (self s1)); reflexivity.
Qed.

(** A call of [run] that gets past [initialize] with the running flag
    clear enters the loop in a dispatching state. *)
Lemma run_enters_loop (d : nat) (stop : Time) (s s1 : System) :
  _running (self s) = false ->
  initialize s = (s1, Ok tt) ->
  dispatching (mkSys (set_running true (self s1)) (calls s1) (stdout s1)) /\
  _timeline (self s1) = _timeline (self s) /\
  run' (S d) stop s =
  match loop_with EV (run' d) (S d) (iter_until stop)
          (mkSys (set_running true (self s1)) (calls s1) (stdout s1))
  with
  | (s', Ok _) =>
      (mkSys (set_running false (self s')) (calls s') (stdout s'), Ok tt)
  | (s', Raise x) => (s', Raise x)
  | (s', OutOfFuel) => (s', OutOfFuel)
  end.
Proof.
  intros Hr Hinit.
  destruct (initialize_frame _ _ _ _ s) as (Hi & Htl & Hrun & _).
  rewrite run_unfold. rewrite Hinit in *. cbn [fst] in *.
  rewrite Hrun, Hr. repeat split; auto.
Qed.

(** The generator runs dry after the due occurrences [evs], all of them
    dispatched without error: [run] returns, having invoked exactly the
    operations of those dispatches, with the running flag clear. *)
Lemma run_completes (fuel : nat) (stop : Time) (s s1 : System)
    (evs : list (E * Timeline)) (g' : Gen) (tl' tl'' : Timeline) :
  List.length evs + 2 <= fuel ->
  _running (self s) = false ->
  initialize s = (s1, Ok tt) ->
  yields' (iter_until stop) (_timeline (self s)) evs g' tl' ->
  gen_next g' tl' = StopIteration tl'' ->
  benign' evs ->
  run' fuel stop s =
  (mkSys (set_running false (set_timeline tl'' (set_running true (self s1))))
     (calls s1 ++ due_calls' evs) (stdout s1),
   Ok tt).
Proof.
  intros Hfuel Hr Hinit Hy Hstop Hben.
  destruct fuel as [|[|d]]; try lia.
  destruct (run_enters_loop (S d) stop s s1 Hr Hinit) as (Hs & Htl & ->).
  replace (S (S d)) with (List.length evs + S (S d - List.length evs))
    by lia.
  rewrite (run_loop_prefix _ (run_idle d) _ _ _ _ _ Hy Hben _ _ Hs)
    by (cbn; assumption).
  rewrite (run_loop_stop _ _ _ _ _ tl'') by (cbn; assumption).
  reflexivity.
Qed.

(** The dispatch of a due occurrence raises after the occurrences [pre]
    were dispatched without error: [run] raises, inside the loop. *)
Lemma run_fails (fuel : nat) (stop : Time) (s s1 : System)
    (pre : list (E * Timeline)) (g1 : Gen) (tl1 : Timeline)
    (e : E) (g2 : Gen) (tl2 : Timeline) (x : Exn) :
  List.length pre + 2 <= fuel ->
  _running (self s) = false ->
  initialize s = (s1, Ok tt) ->
  yields' (iter_until stop) (_timeline (self s)) pre g1 tl1 ->
  benign' pre ->
  gen_next g1 tl1 = Yield e g2 tl2 ->
  dispatch_outcome e (tl_time tl2) = Raises x ->
  run' fuel stop s =
  (mkSys (set_timeline tl2 (set_running true (self s1)))
     (calls s1 ++ due_calls' pre ++ dispatch_calls e (tl_time tl2))
     (stdout s1),
   Raise x).
Proof.
  intros Hfuel Hr Hinit Hy Hben Hstep Hout.
  destruct fuel as [|[|d]]; try lia.
  destruct (run_enters_loop (S d) stop s s1 Hr Hinit) as (Hs & Htl & ->).
  replace (S (S d)) with (List.length pre + S (S d - List.length pre))
    by lia.
  rewrite (run_loop_prefix _ (run_idle d) _ _ _ _ _ Hy Hben _ _ Hs)
    by (cbn; assumption).
  rewrite (run_loop_yield _ _ _ _ _ e g2 tl2) by (cbn; assumption).
  rewrite (dispatch_spec _ (run_idle d)) by exact Hs.
  cbn [self calls stdout set_timeline _timeline]. rewrite Hout.
  cbn [res_of]. tidy.
Qed.

(** X11.  Called on a manager that was never initialized, with every
    initialize operation returning: [run] first walks the registration
    list, then dispatches the due occurrences, and returns. *)
Lemma run_standalone (fuel : nat) (stop : Time) (s : System)
    (evs : list (E * Timeline)) (g' : Gen) (tl' tl'' : Timeline) :
  List.length evs + 2 <= fuel ->
  _initializing (self s) = false ->
  _running (self s) = false ->
  (forall entry, In entry (_order (self s)) ->
     ev_initialize (fst entry) = Some Returns) ->
  yields' (iter_until stop) (_timeline (self s)) evs g' tl' ->
  gen_next g' tl' = StopIteration tl'' ->
  benign' evs ->
  let s' := fst (run' fuel stop s) in
  snd (run' fuel stop s) = Ok tt /\
  calls s' = calls s ++ init_calls (_order (self s)) ++ due_calls' evs /\
  _initialized (self s') = true /\
  _running (self s') = false /\
  _timeline (self s') = tl''.
Proof.
  intros Hfuel Hi Hr Hok Hy Hstop Hben.
  rewrite (run_completes fuel stop s _ evs g' tl' tl'' Hfuel Hr
             (initialize_ok _ _ _ _ s Hi Hok) Hy Hstop Hben).
  cbn. rewrite app_assoc. auto.
Qed.

(** *** The claims about [run] *)

(** C3, as the code has it.  When the dispatch of a due event raises --
    its run operation raises an error that is not an [AttributeError],
    or the fallback to its update operation raises -- after the due
    occurrences before it were dispatched without error, [run] raises
    that error, has invoked nothing after the operations of that
    dispatch and has not resumed the generator; the running flag stays
    set, so that every later call of [run] returns at once without
    dispatching anything. *)
Theorem run_failure_leaves_running_set (fuel : nat) (stop : Time)
    (s s1 : System) (pre : list (E * Timeline)) (g1 : Gen) (tl1 : Timeline)
    (e : E) (g2 : Gen) (tl2 : Timeline) (x : Exn) :
  List.length pre + 2 <= fuel ->
  _running (self s) = false ->
  initialize s = (s1, Ok tt) ->
  yields' (iter_until stop) (_timeline (self s)) pre g1 tl1 ->
  benign' pre ->
  gen_next g1 tl1 = Yield e g2 tl2 ->
  dispatch_outcome e (tl_time tl2) = Raises x ->
  let s' := fst (run' fuel stop s) in
  snd (run' fuel stop s) = Raise x /\
  calls s' = calls s1 ++ due_calls' pre ++ dispatch_calls e (tl_time tl2) /\
  _timeline (self s') = tl2 /\
  _running (self s') = true /\
  forall (fuel' : nat) (stop' : Time),
    1 <= fuel' -> run' fuel' stop' s' = (s', Ok tt).
Proof.
  intros Hfuel Hr Hinit Hy Hben Hstep Hd.
  rewrite (run_fails fuel stop s s1 pre g1 tl1 e g2 tl2 x); auto.
  cbn. repeat split; auto.
  intros [|fuel'] stop' Hf; [lia|].
  apply run_idle. split; cbn; [reflexivity|].
  destruct (initialize_frame _ _ _ _ s) as (Hi & _).
  now rewrite Hinit in Hi.
Qed.

(** C5, as the code has it.  In every step of the loop of [run] that
    yields an event whose run operation, if it has one, does not itself
    raise [AttributeError], the dispatch invokes at most one operation:
    the run operation when the event has it, otherwise the update
    operation once when the event has that, each with the timeline's
    time at that moment; the loop then goes on or stops as that dispatch
    ended. *)
Theorem dispatch_invokes_one_operation (d k : nat) (g : Gen) (s : System)
    (e : E) (g1 : Gen) (tl1 : Timeline) :
  dispatching s ->
  gen_next g (_timeline (self s)) = Yield e g1 tl1 ->
  (forall body, ev_run e = Some body ->
     outcome (body (tl_time tl1)) <> Raises AttributeError) ->
  let s0 := mkSys (set_timeline tl1 (self s)) (calls s) (stdout s) in
  let s' := fst (dispatch tl_time (run' (S d)) e s0) in
  let r := snd (dispatch tl_time (run' (S d)) e s0) in
  calls s' =
    calls s ++
    match ev_run e, ev_update e with
    | Some _, _ => [(e, OpRun (tl_time tl1))]
    | None, Some _ => [(e, OpUpdate (tl_time tl1))]
    | None, None => []
    end /\
  loop_with EV (run' (S d)) (S k) g s =
    match r with
    | Ok _ => loop_with EV (run' (S d)) k g1 s'
    | _ => (s', r)
    end.
Proof.
  intros Hs Hstep Hrun s0 s' r.
  assert (Hs0 : dispatching s0) by exact Hs.
  rewrite (run_loop_yield _ _ _ _ _ _ _ _ Hstep).
  subst s' r. fold s0.
  rewrite (dispatch_spec _ (run_idle d) e s0 Hs0).
  cbn [fst snd self calls stdout s0 set_timeline _timeline].
  split.
  - f_equal. unfold dispatch_calls, falls_back, update_calls.
    destruct (ev_run e) as [body|].
    + specialize (Hrun body eq_refl).
      destruct (outcome (body (tl_time tl1))) as [|[]]; try reflexivity.
      now contradiction Hrun.
    + destruct (ev_update e); reflexivity.
  - destruct (dispatch_outcome e (tl_time tl1)); reflexivity.
Qed.

(** C6.  A call of [run] is its call of [initialize] followed by [run]
    on the manager that call left, and ends there when [initialize]
    raises.  Entered with the running flag set, [run] reduces to that
    call of [initialize]: it leaves the timeline as it is and invokes no
    run or update operation.  In particular, while the manager is
    dispatching, a call of [run] does nothing at all, the body of an
    event operation that makes such calls ends as if it had not made
    them, and a whole call of [run] comes out the same as with events
    that never call back. *)
Theorem run_initializes_and_guards_reentry (d : nat) (stop : Time)
    (s : System) :
  match snd (initialize s) with
  | Ok _ => run' (S d) stop s = run' (S d) stop (fst (initialize s))
  | r => run' (S d) stop s = (fst (initialize s), r)
  end /\
  (_running (self s) = true ->
     let s' := fst (run' (S d) stop s) in
     run' (S d) stop s = initialize s /\
     _timeline (self s') = _timeline (self s) /\
     filter (fun c => is_dispatch (snd c)) (calls s') =
     filter (fun c => is_dispatch (snd c)) (calls s)) /\
  (dispatching s ->
     run' (S d) stop s = (s, Ok tt) /\
     forall b : Body Time,
       exec_body (run' (S d)) b s = (s, res_of (outcome b))) /\
  run' (S (S d)) stop s = run_with (without_reentry EV) (S (S d)) stop s.
Proof.
  split; [|split; [|split]].
  - destruct (initialize_frame _ _ _ _ s) as (Hi & _).
    rewrite (run_unfold EV d stop s).
    destruct (initialize s) as [s1 r] eqn:Hinit. cbn [fst snd] in *.
    destruct r as [[]| |]; try reflexivity.
    rewrite (run_unfold EV d stop s1).
    now rewrite (initialize_idle _ _ _ _ s1 Hi).
  - intros Hr s'. subst s'. rewrite (run_guarded d stop s Hr).
    destruct (initialize_frame _ _ _ _ s) as (_ & Htl & _ & _ & _ & k & Hk).
    repeat split; auto.
    rewrite Hk, filter_app.
    assert (Hnone : forall l : list (E * Interval),
              filter (fun c : E * Op Time => is_dispatch (snd c))
                (init_calls l) = []).
    { induction l as [|a l IH]; [reflexivity|exact IH]. }
    now rewrite Hnone, app_nil_r.
  - intro Hs. split; [now apply run_idle|].
    intro b. now apply (exec_body_dispatching _ (run_idle d)).
  - rewrite !run_unfold.
    change (@initialize E Time Interval (without_reentry EV) Timeline s)
      with (@initialize E Time Interval EV Timeline s).
    destruct (initialize_frame _ _ _ _ s) as (Hi & _).
    destruct (initialize s) as [s1 [[]| |]]; try reflexivity.
    cbn [fst] in Hi.
    destruct (_running (self s1)); [reflexivity|].
    rewrite (run_loop_without_reentry _ (run_idle d)
               (run_with (without_reentry EV) (S d)));
      [reflexivity|].
    split; [reflexivity|exact Hi].
Qed.

End RunFacts.

(** ** Construction *)

Section ConstructionFacts.

Variables Config Timeline : Type.
Variable sections : Config -> list string.
Variable get : Config -> string -> string -> Res string.
Variable readfp : string -> Res Config.
Variable read : string -> Res Config.
Variable names_with_prefix : list string -> string -> list string.
Variable Timeline_new : list (string * string) -> Timeline.

Lemma from_config_loop_ok (config : Config) (value : string -> string)
    (names : list string) :
  (forall n, In n names -> get config n "interval" = Ok (value n)) ->
  forall events,
    from_config_loop get config names events =
    Ok (events ++ map (fun n => (n, value n)) names).
Proof.
  induction names as [|n names IH]; intros Hget events; simpl.
  - now rewrite app_nil_r.
  - rewrite (Hget n (or_introl eq_refl)). simpl.
    rewrite IH by (intros; apply Hget; now right).
    now rewrite <- app_assoc.
Qed.

(** X12.  The glue below the two constructors: handed a configuration
    in which every selected section has an [interval], the loop of
    [_from_config] collects one [(name, interval)] pair per selected
    name, in the order [names_with_prefix] gives them, and hands that
    list to the constructor; every manager [_from_config] returns has
    exactly that registration list and its four flags clear. *)
Lemma from_config_registration_list (config : Config) (prefix : string)
    (value : string -> string) :
  (forall n, In n (names_with_prefix (sections config) prefix) ->
     get config n "interval" = Ok (value n)) ->
  let events :=
    map (fun n => (n, value n))
      (names_with_prefix (sections config) prefix) in
  from_config_loop get config
    (names_with_prefix (sections config) prefix) [] = Ok events /\
  forall m,
    _from_config sections get names_with_prefix Timeline_new config prefix
      = Ok m ->
    _order m = events /\
    _initializing m = false /\ _initialized m = false /\
    _running m = false /\ _finalizing m = false.
Proof.
  intro Hget. cbv zeta. unfold _from_config.
  rewrite (from_config_loop_ok config value _ Hget). cbn [app res_bind].
  split; [reflexivity|].
  intros m Hm. injection Hm as <-. cbn. auto.
Qed.

(** C9, where the code departs from it.  [manager.py] binds neither
    [ConfigParser] nor [StringIO]: whatever the source, the path and the
    prefix, both constructors raise [NameError] at [ConfigParser()] and
    return no manager. *)
Theorem named_constructors_raise_NameError (source path prefix : string) :
  from_string sections get readfp names_with_prefix Timeline_new
    source prefix = Raise (NameError "ConfigParser") /\
  from_path sections get read names_with_prefix Timeline_new
    path prefix = Raise (NameError "ConfigParser").
Proof. split; reflexivity. Qed.

End ConstructionFacts.

(** * The statements on concrete managers *)

(** The timeline of the specification's example: [A] every 2 and [B]
    every 3 time units, run until time 6. *)
Example two_recurring_events :
  let w := fst (do_run 7 6 (new_manager [(plain "A", 2); (update_only "B", 3)]))%Z in
  map (fun c => (name (fst c), snd c)) (calls w) =
    [("A", OpInitialize); ("B", OpInitialize);
     ("A", OpRun 2); ("B", OpUpdate 3); ("A", OpRun 4);
     ("A", OpRun 6); ("B", OpUpdate 6)]%Z /\
  clock_of w = 6%Z /\ _running (self w) = false.
Proof. repeat split. Qed.

Lemma initialize_in_registration_order_witness :
  let s := new_manager [(plain "A", 2); (plain "B", 3)]%Z in
  let s' := fst (do_initialize s) in
  snd (do_initialize s) = Ok tt /\
  calls s' = [(plain "A", OpInitialize); (plain "B", OpInitialize)] /\
  _initializing (self s') = true /\
  _initialized (self s') = true /\
  _order (self s') = _order (self s).
Proof.
  apply (@initialize_in_registration_order EventObject Z Z _ TL
           (new_manager [(plain "A", 2); (plain "B", 3)]%Z)).
  - reflexivity.
  - intros entry [<-|[<-|[]]]; reflexivity.
Defined.

Lemma finalize_in_reverse_order_witness :
  let s0 := new_manager [(plain "A", 2); (plain "B", 3)]%Z in
  let s1 := fst (do_initialize s0) in
  let s2 := fst (do_finalize s1) in
  (snd (do_finalize s1) = Ok tt /\
   calls s2 = calls s1 ++ [(plain "B", OpFinalize); (plain "A", OpFinalize)] /\
   _initialized (self s2) = false) /\
  do_finalize s0 = (s0, Ok tt).
Proof.
  destruct (@finalize_in_reverse_order EventObject Z Z _ TL) as [Hwalk Hidle].
  split.
  - apply (Hwalk (new_manager [(plain "A", 2); (plain "B", 3)]%Z)).
    + reflexivity.
    + reflexivity.
    + reflexivity.
    + intros entry [<-|[<-|[]]]; reflexivity.
  - apply Hidle. reflexivity.
Defined.

(** The third of five events fails to initialize. *)
Lemma initialize_failure_is_stuck_witness :
  let third := fails_initialize "e3" (EventError 3) in
  let s := new_manager [(plain "e1", 1); (plain "e2", 1); (third, 1);
                        (plain "e4", 1); (plain "e5", 1)]%Z in
  let s' := fst (do_initialize s) in
  snd (do_initialize s) = Raise (EventError 3) /\
  calls s' = [(plain "e1", OpInitialize); (plain "e2", OpInitialize);
              (third, OpInitialize)] /\
  (isinstance_Exception (EventError 3) = true ->
   stdout s' = [PStr "error initializing"; PEvent third]) /\
  _initializing (self s') = true /\
  _initialized (self s') = false /\
  do_initialize s' = (s', Ok tt).
Proof.
  apply (@initialize_failure_is_stuck EventObject Z Z _ TL
           (new_manager [(plain "e1", 1); (plain "e2", 1);
                         (fails_initialize "e3" (EventError 3), 1);
                         (plain "e4", 1); (plain "e5", 1)]%Z)
           [(plain "e1", 1); (plain "e2", 1)]%Z
           [(plain "e4", 1); (plain "e5", 1)]%Z
           (fails_initialize "e3" (EventError 3), 1%Z) (EventError 3)).
  - reflexivity.
  - reflexivity.
  - reflexivity.
  - intros p [<-|[<-|[]]]; reflexivity.
  - reflexivity.
Defined.

Lemma lifecycle_calls_are_idempotent_witness :
  let s := new_manager [(plain "A", 2); (plain "B", 3)]%Z in
  let s1 := fst (do_initialize s) in
  let s2 := fst (do_initialize s1) in
  let s3 := fst (do_finalize s2) in
  let s4 := fst (do_finalize s3) in
  snd (do_initialize s) = Ok tt /\ snd (do_initialize s1) = Ok tt /\
  calls s2 = [(plain "A", OpInitialize); (plain "B", OpInitialize)] /\
  snd (do_finalize s2) = Ok tt /\ snd (do_finalize s3) = Ok tt /\
  calls s4 = calls s2 ++ [(plain "B", OpFinalize); (plain "A", OpFinalize)].
Proof.
  apply (@lifecycle_calls_are_idempotent EventObject Z Z _ TL
           (new_manager [(plain "A", 2); (plain "B", 3)]%Z)).
  - reflexivity.
  - reflexivity.
  - intros entry [<-|[<-|[]]]; reflexivity.
  - intros entry [<-|[<-|[]]]; reflexivity.
Defined.

Lemma finalize_failure_keeps_initialized_witness :
  let bad := fails_finalize "B" (EventError 2) in
  let s := fst (do_initialize
                  (new_manager [(plain "A", 1); (bad, 1); (plain "C", 1)]%Z)) in
  let s' := fst (do_finalize s) in
  snd (do_finalize s) = Raise (EventError 2) /\
  calls s' = calls s ++ [(plain "C", OpFinalize); (bad, OpFinalize)] /\
  _initialized (self s') = true.
Proof.
  apply (@finalize_failure_keeps_initialized EventObject Z Z _ TL
           (fst (do_initialize
                   (new_manager [(plain "A", 1);
                                 (fails_finalize "B" (EventError 2), 1);
                                 (plain "C", 1)]%Z)))
           [(plain "A", 1%Z)] [(plain "C", 1%Z)]
           (fails_finalize "B" (EventError 2), 1%Z) (EventError 2)).
  - reflexivity.
  - reflexivity.
  - reflexivity.
  - intros p [<-|[]]; reflexivity.
  - reflexivity.
Defined.

Lemma second_finalize_skips_the_walk_witness :
  let bad := fails_finalize "B" (EventError 2) in
  let s := fst (do_initialize
                  (new_manager [(plain "A", 1); (bad, 1); (plain "C", 1)]%Z)) in
  let s1 := fst (do_finalize s) in
  let s2 := fst (do_finalize s1) in
  snd (do_finalize s) = Raise (EventError 2) /\
  _finalizing (self s1) = true /\
  snd (do_finalize s1) = Ok tt /\
  calls s2 = calls s1 /\
  calls s2 = calls s ++ [(plain "C", OpFinalize); (bad, OpFinalize)] /\
  _initialized (self s2) = false.
Proof.
  apply (@second_finalize_skips_the_walk EventObject Z Z _ TL
           (fst (do_initialize
                   (new_manager [(plain "A", 1);
                                 (fails_finalize "B" (EventError 2), 1);
                                 (plain "C", 1)]%Z)))
           [(plain "A", 1%Z)] [(plain "C", 1%Z)]
           (fails_finalize "B" (EventError 2), 1%Z) (EventError 2)).
  - reflexivity.
  - reflexivity.
  - reflexivity.
  - intros p [<-|[]]; reflexivity.
  - reflexivity.
Defined.

(** [B] has no run operation and its update operation fails at time 3,
    after [A] ran at time 2. *)
Lemma run_failure_leaves_running_set_witness :
  let A := plain "A" in
  let B := fails_update "B" (EventError 7) in
  let s := new_manager [(A, 2); (B, 3)]%Z in
  let s' := fst (do_run 5 6 s) in
  snd (do_run 5 6 s) = Raise (EventError 7) /\
  calls s' =
    calls (fst (do_initialize s)) ++ [(A, OpRun 2); (B, OpUpdate 3)]%Z /\
  _timeline (self s') = SpecTimeline.mkTimeline 3 [(A, 4, 2); (B, 6, 3)]%Z /\
  _running (self s') = true /\
  forall (fuel' : nat) (stop' : Z),
    1 <= fuel' -> do_run fuel' stop' s' = (s', Ok tt).
Proof.
  refine (@run_failure_leaves_running_set EventObject Z Z _ TL Z
           (@SpecTimeline.tl_time EventObject) SpecTimeline.iter_until
           (@SpecTimeline.gen_next EventObject) 5 6%Z
           (new_manager [(plain "A", 2);
                         (fails_update "B" (EventError 7), 3)]%Z)
           (fst (do_initialize
              (new_manager [(plain "A", 2);
                            (fails_update "B" (EventError 7), 3)]%Z)))
           [(plain "A",
             SpecTimeline.mkTimeline 2
               [(plain "A", 4, 2); (fails_update "B" (EventError 7), 3, 3)]%Z)]
           6%Z
           (SpecTimeline.mkTimeline 2
              [(plain "A", 4, 2); (fails_update "B" (EventError 7), 3, 3)]%Z)
           (fails_update "B" (EventError 7)) 6%Z
           (SpecTimeline.mkTimeline 3
              [(plain "A", 4, 2); (fails_update "B" (EventError 7), 6, 3)]%Z)
           (EventError 7)
           _ _ _ _ _ _ _).
  - simpl. lia.
  - reflexivity.
  - reflexivity.
  - eapply yields_cons; [reflexivity | apply yields_nil].
  - intros occ [<-|[]]. reflexivity.
  - reflexivity.
  - reflexivity.
Defined.

(** C3 fails on the code: after [B] raised in the loop the running flag
    is still set, and the next call of [run] returns without dispatching
    [A], which is due at time 4. *)
Lemma run_failure_clears_running_counterexample :
  let A := plain "A" in
  let B := fails_run "B" (EventError 7) in
  let s' := fst (do_run 5 6 (new_manager [(A, 2); (B, 3)]%Z)) in
  snd (do_run 5 6 (new_manager [(A, 2); (B, 3)]%Z)) = Raise (EventError 7) /\
  _running (self s') = true /\
  _running (self s') <> false /\
  do_run 5 100 s' = (s', Ok tt) /\
  clock_of (fst (do_run 5 100 s')) = 3%Z.
Proof.
  cbv zeta. repeat split. discriminate.
Qed.

(** An event with only an update operation is due at time 3. *)
Lemma dispatch_invokes_one_operation_witness :
  let B := update_only "B" in
  let s := mid_run [(B, 3%Z)] in
  let s0 := mkSys (set_timeline (SpecTimeline.mkTimeline 3 [(B, 6, 3)]%Z)
                     (self s)) (calls s) (stdout s) in
  calls (fst (dispatch (@SpecTimeline.tl_time EventObject)
                (do_run 2) B s0)) = [(B, OpUpdate 3%Z)].
Proof.
  refine (proj1
    (@dispatch_invokes_one_operation EventObject Z Z _ TL Z
       (@SpecTimeline.tl_time EventObject) SpecTimeline.iter_until
       (@SpecTimeline.gen_next EventObject) 1 1 6%Z
       (mid_run [(update_only "B", 3%Z)]) (update_only "B") 6%Z
       (SpecTimeline.mkTimeline 3 [(update_only "B", 6, 3)]%Z) _ _ _)).
  - split; reflexivity.
  - reflexivity.
  - intros body H. discriminate H.
Defined.

(** C5 fails on the code: the run operation of this event raises
    [AttributeError] from inside, and its one due occurrence at time 2
    gets both its run and its update operation invoked. *)
Lemma dispatch_invokes_both_counterexample :
  let c := confused "C" in
  let w := do_run 5 2 (new_manager [(c, 2%Z)]) in
  ev_run c <> None /\
  snd w = Ok tt /\
  calls (fst w) = [(c, OpInitialize); (c, OpRun 2%Z); (c, OpUpdate 2%Z)].
Proof.
  cbv zeta. repeat split. discriminate.
Qed.

(** An event whose run operation calls [manager.run] while the manager is
    dispatching it. *)
Lemma run_initializes_and_guards_reentry_witness :
  let s := mid_run [(nosy "N", 2%Z)] in
  (do_run 2 6 s = (s, Ok tt) /\
   forall b : Body Z,
     exec_body (do_run 2) b s = (s, res_of (outcome b))) /\
  (do_run 2 6 s = do_initialize s /\
   _timeline (self (fst (do_run 2 6 s))) = _timeline (self s) /\
   filter (fun c => is_dispatch (snd c)) (calls (fst (do_run 2 6 s))) =
   filter (fun c => is_dispatch (snd c)) (calls s)).
Proof.
  destruct (@run_initializes_and_guards_reentry EventObject Z Z _ TL Z
              (@SpecTimeline.tl_time EventObject) SpecTimeline.iter_until
              (@SpecTimeline.gen_next EventObject) 1 6%Z
              (mid_run [(nosy "N", 2%Z)])) as (_ & Hguard & Hidle & _).
  split.
  - apply Hidle. split; reflexivity.
  - apply Hguard. reflexivity.
Defined.

(** The calls of [manager.run] made by [N] from inside its run operation
    change nothing: [N] runs at times 2, 4 and 6 and the clock ends
    at 6. *)
Example nested_run_is_harmless :
  let w := do_run 5 6 (new_manager [(nosy "N", 2%Z)]) in
  snd w = Ok tt /\
  map (fun c => (name (fst c), snd c)) (calls (fst w)) =
    [("N", OpInitialize); ("N", OpRun 2); ("N", OpRun 4); ("N", OpRun 6)]%Z /\
  clock_of (fst w) = 6%Z.
Proof. repeat split. Qed.

(** * More of the manager: what a call can and cannot do *)

Section CallerFacts.

Variables E Time Interval : Type.
Context {EV : EventLike E Time}.
Variables Timeline Gen : Type.
Variable Timeline_new : list (E * Interval) -> Timeline.
Variable tl_time : Timeline -> Time.
Variable tl_add_recurring_event :
  E -> Interval -> Timeline -> Timeline * Res unit.
Variable iter_until : Time -> Gen.
Variable gen_next : Gen -> Timeline -> GenStep E Gen Timeline.

Local Abbreviation System := (Sys E Time Interval Timeline).
Local Abbreviation Comp A := (M E Time Interval Timeline A).
Local Abbreviation run' :=
  (@run E Time Interval EV Timeline Gen tl_time iter_until gen_next).
Local Abbreviation loop' :=
  (@run_loop E Time Interval EV Timeline Gen tl_time gen_next).
Local Abbreviation call' :=
  (@call E Time Interval EV Timeline Gen tl_time tl_add_recurring_event
     iter_until gen_next).
Local Abbreviation call_all' :=
  (@call_all E Time Interval EV Timeline Gen tl_time tl_add_recurring_event
     iter_until gen_next).
Local Abbreviation yields' := (@yields E Timeline Gen gen_next).
Local Abbreviation due_calls' := (@due_calls E Time EV Timeline tl_time).
Local Abbreviation benign' := (@benign E Time EV Timeline tl_time).
Local Abbreviation initialize' := (@initialize E Time Interval EV Timeline).
Local Abbreviation finalize' := (@finalize E Time Interval EV Timeline).
Local Abbreviation quiet := (@only_dispatched E Time Interval Timeline).
Local Abbreviation Quiet A := (@dispatches_only E Time Interval Timeline A).
Local Abbreviation inits l :=
  (filter (fun c : E * Op Time => is_initialize (snd c)) l).
Local Abbreviation lifecycle l :=
  (filter (fun c : E * Op Time => is_lifecycle (snd c)) l).

(** ** Computations that only dispatch *)

Lemma quiet_refl (s : System) : quiet s s.
Proof.
  unfold only_dispatched. repeat split; auto.
  exists []. split; [now rewrite app_nil_r | reflexivity].
Qed.

Lemma quiet_trans (s1 s2 s3 : System) :
  quiet s1 s2 -> quiet s2 s3 -> quiet s1 s3.
Proof.
  intros (Ho & Hi & Hd & Hf & Hp & l & Hl & Hall)
         (Ho' & Hi' & Hd' & Hf' & Hp' & l' & Hl' & Hall').
  unfold only_dispatched. repeat split; try congruence.
  exists (l ++ l'). split.
  - rewrite Hl', Hl. now rewrite app_assoc.
  - rewrite forallb_app, Hall, Hall'. reflexivity.
Qed.

Lemma Quiet_same (A : Type) (m : Comp A) :
  (forall s, fst (m s) = s) -> Quiet A m.
Proof. intros H s _. rewrite H. apply quiet_refl. Qed.

Lemma Quiet_bind (A B : Type) (m : Comp A) (k : A -> Comp B) :
  Quiet A m -> (forall a, Quiet B (k a)) -> Quiet B (bind m k).
Proof.
  intros Hm Hk s Hs. unfold bind. specialize (Hm s Hs).
  destruct (m s) as [s1 [a| |]]; cbn [fst] in *; try exact Hm.
  apply (quiet_trans _ _ _ Hm). apply Hk.
  destruct Hm as (_ & -> & _). exact Hs.
Qed.

Lemma Quiet_try (A : Type) (body : Comp A) (catches : Exn -> bool)
    (handler : Exn -> Comp A) :
  Quiet A body -> (forall x, Quiet A (handler x)) ->
  Quiet A (try_except body catches handler).
Proof.
  intros Hb Hh s Hs. unfold try_except. specialize (Hb s Hs).
  destruct (body s) as [s1 [a|x|]]; cbn [fst] in *; try exact Hb.
  destruct (catches x); cbn [fst]; try exact Hb.
  apply (quiet_trans _ _ _ Hb). apply Hh.
  destruct Hb as (_ & -> & _). exact Hs.
Qed.

Lemma Quiet_log (e : E) (o : Op Time) :
  is_dispatch o = true -> Quiet unit (log e o).
Proof.
  intros Ho s _. unfold log, only_dispatched. cbn. repeat split; auto.
  exists [(e, o)]. split; [reflexivity|]. cbn. now rewrite Ho.
Qed.

Lemma Quiet_set_timeline (tl : Timeline) :
  Quiet unit (modify (set_timeline tl)).
Proof.
  intros s _. unfold modify, only_dispatched. cbn. repeat split; auto.
  exists []. split; [now rewrite app_nil_r | reflexivity].
Qed.

Lemma Quiet_set_running (b : bool) :
  Quiet unit (modify (@set_running E Interval Timeline b)).
Proof.
  intros s _. unfold modify, only_dispatched. cbn. repeat split; auto.
  exists []. split; [now rewrite app_nil_r | reflexivity].
Qed.

Lemma Quiet_finish (o : Outcome) : Quiet unit (finish o).
Proof. apply Quiet_same. intro s. destruct o; reflexivity. Qed.

Lemma Quiet_for_each (A : Type) (body : A -> Comp unit) (l : list A) :
  (forall a, Quiet unit (body a)) -> Quiet unit (for_each l body).
Proof.
  intro Hb. induction l as [|a l IH]; cbn [for_each].
  - now apply Quiet_same.
  - apply Quiet_bind; auto.
Qed.

Lemma Quiet_initialize : Quiet unit initialize'.
Proof.
  intros s Hs. rewrite (initialize_idle _ _ _ _ s Hs). apply quiet_refl.
Qed.

Section Behind.

Variable rec : Time -> Comp unit.
Hypothesis rec_quiet : forall t, Quiet unit (rec t).

Lemma Quiet_exec_body (b : Body Time) : Quiet unit (exec_body rec b).
Proof.
  unfold exec_body. apply Quiet_bind.
  - now apply Quiet_for_each.
  - intro. apply Quiet_finish.
Qed.

Lemma Quiet_dispatch (e : E) : Quiet unit (dispatch tl_time rec e).
Proof.
  unfold dispatch. apply Quiet_try.
  - unfold call_run. destruct (ev_run e) as [body|].
    + apply Quiet_bind; [now apply Quiet_same|]. intro t.
      apply Quiet_bind; [now apply Quiet_log|]. intro.
      apply Quiet_exec_body.
    + now apply Quiet_same.
  - intros _. unfold call_update. destruct (ev_update e) as [body|].
    + apply Quiet_bind; [now apply Quiet_same|]. intro t.
      apply Quiet_bind; [now apply Quiet_log|]. intro.
      apply Quiet_exec_body.
    + now apply Quiet_same.
Qed.

Lemma Quiet_run_loop (fuel : nat) (g : Gen) : Quiet unit (loop' rec fuel g).
Proof.
  revert g. induction fuel as [|fuel IH]; intro g; cbn [run_loop].
  - now apply Quiet_same.
  - apply Quiet_bind; [now apply Quiet_same|]. intro tl.
    destruct (gen_next g tl) as [e g1 tl1|tl1|x tl1].
    + apply Quiet_bind; [apply Quiet_set_timeline|]. intro.
      apply Quiet_bind; [apply Quiet_dispatch|]. intro. apply IH.
    + apply Quiet_set_timeline.
    + apply Quiet_bind; [apply Quiet_set_timeline|]. intro.
      now apply Quiet_same.
Qed.

Lemma Quiet_run_body (fuel : nat) (stop : Time) :
  Quiet unit (run_body tl_time iter_until gen_next rec fuel stop).
Proof.
  unfold run_body. apply Quiet_bind; [apply Quiet_initialize|]. intro.
  apply Quiet_bind; [now apply Quiet_same|]. intro running.
  destruct (negb running).
  - apply Quiet_bind; [apply Quiet_set_running|]. intro.
    apply Quiet_bind; [apply Quiet_run_loop|]. intro.
    apply Quiet_set_running.
  - now apply Quiet_same.
Qed.

End Behind.

Lemma Quiet_run (fuel : nat) (stop : Time) : Quiet unit (run' fuel stop).
Proof.
  revert stop. induction fuel as [|fuel IH]; intro stop; cbn [run].
  - now apply Quiet_same.
  - apply Quiet_run_body. exact IH.
Qed.

(** ** What each method leaves alone *)

Lemma fin_walk_frame (l : list (E * Interval)) (s s' : System)
    (r : Res unit) :
  for_each l (fun entry : E * Interval =>
    @call_finalize E Time Interval EV Timeline (fst entry)) s = (s', r) ->
  self s' = self s /\ stdout s' = stdout s /\
  exists k, calls s' = calls s ++ finalize_calls (firstn k l).
Proof.
  revert s. induction l as [|a l IH]; intros s H; cbn [for_each] in H.
  - injection H as <- <-. repeat split. exists 0. cbn. now rewrite app_nil_r.
  - unfold bind, call_finalize at 1 in H.
    destruct (ev_finalize (fst a)) as [[|x]|]; cbn in H.
    + destruct (IH _ H) as (Hs & Hp & k & Hk). cbn in Hs, Hp, Hk.
      split; [exact Hs|]. split; [exact Hp|].
      exists (S k). rewrite Hk. cbn. now rewrite <- app_assoc.
    + injection H as <- <-. repeat split. now exists 1.
    + injection H as <- <-. repeat split. exists 0. cbn.
      now rewrite app_nil_r.
Qed.

(** [finalize] touches only the initialized and finalizing flags and
    invokes nothing but finalize operations, taken from the end of the
    registration list. *)
Lemma finalize_frame (s : System) :
  let s' := fst (finalize' s) in
  _initializing (self s') = _initializing (self s) /\
  _running (self s') = _running (self s) /\
  _timeline (self s') = _timeline (self s) /\
  _order (self s') = _order (self s) /\
  stdout s' = stdout s /\
  (_initialized (self s) = false -> s' = s) /\
  (_initialized (self s') = true -> _initialized (self s) = true) /\
  exists k,
    calls s' = calls s ++ finalize_calls (firstn k (rev (_order (self s)))).
Proof.
  cbv zeta. destruct (finalize' s) as [s' r] eqn:H. cbn [fst].
  unfold finalize, bind, gets in H.
  destruct (_initialized (self s)) eqn:Hd; cbn [fst snd] in H.
  2:{ injection H as <- <-. repeat split; auto; try congruence.
      exists 0. cbn. now rewrite app_nil_r. }
  destruct (_finalizing (self s)) eqn:Hf; cbn [negb fst snd] in H.
  - cbn in H. injection H as <- <-. cbn. repeat split; auto; try congruence.
    exists 0. cbn. now rewrite app_nil_r.
  - unfold modify at 1 in H. cbn [fst snd self calls stdout] in H.
    cbn [_order set_finalizing self] in H.
    destruct (for_each (rev (_order (self s))) _ _) as [s1 r1] eqn:Hw.
    destruct (fin_walk_frame _ _ _ _ Hw) as (Hs & Hp & k & Hk).
    cbn [self calls stdout] in Hs, Hp, Hk.
    destruct r1 as [[]| |]; unfold modify in H; injection H as <- <-;
      cbn [self calls stdout]; rewrite ?Hs; cbn;
      repeat split; auto; try congruence; now exists k.
Qed.

(** [add_recurring_event] touches the timeline and, when the timeline
    accepts the event, appends one entry; it touches nothing else. *)
Lemma add_frame (event : E) (interval : Interval) (s : System) :
  let s' :=
    fst (@add_recurring_event E Time Interval Timeline
           tl_add_recurring_event event interval s) in
  _initializing (self s') = _initializing (self s) /\
  _initialized (self s') = _initialized (self s) /\
  _running (self s') = _running (self s) /\
  _finalizing (self s') = _finalizing (self s) /\
  calls s' = calls s /\
  stdout s' = stdout s /\
  (_order (self s') = _order (self s) \/
   _order (self s') = _order (self s) ++ [(event, interval)]).
Proof.
  cbv zeta. unfold add_recurring_event, bind, on_timeline, modify.
  destruct (tl_add_recurring_event event interval (_timeline (self s)))
    as [tl [[]| |]]; cbn; auto 10.
Qed.

(** A call of [run] is its call of [initialize] followed by dispatching
    only. *)
Lemma run_after_initialize (d : nat) (stop : Time) (s : System) :
  quiet (fst (initialize' s)) (fst (run' (S d) stop s)).
Proof.
  destruct (initialize_frame E Time Interval Timeline s) as (Hi & _).
  pose proof (Quiet_run (S d) stop (fst (initialize' s)) Hi) as Hq.
  rewrite (run_unfold E Time Interval Timeline Gen tl_time iter_until
             gen_next EV d stop) in Hq |- *.
  rewrite (initialize_idle E Time Interval Timeline _ Hi) in Hq.
  destruct (initialize' s) as [s1 [[]| |]]; cbn [fst] in *;
    try apply quiet_refl.
  exact Hq.
Qed.

Lemma inits_init_calls (l : list (E * Interval)) :
  inits (init_calls l) = init_calls l.
Proof. induction l as [|a l IH]; cbn; [reflexivity | f_equal; exact IH]. Qed.

Lemma lifecycle_of_dispatches (l : list (E * Op Time)) :
  forallb (fun c => is_dispatch (snd c)) l = true -> lifecycle l = [].
Proof.
  induction l as [|[e o] l IH]; cbn; [reflexivity|].
  destruct o; cbn; try discriminate; exact IH.
Qed.

Lemma inits_of_dispatches (l : list (E * Op Time)) :
  forallb (fun c => is_dispatch (snd c)) l = true -> inits l = [].
Proof.
  induction l as [|[e o] l IH]; cbn; [reflexivity|].
  destruct o; cbn; try discriminate; exact IH.
Qed.

Lemma inits_finalize_calls (l : list (E * Interval)) :
  inits (finalize_calls l) = [].
Proof. induction l as [|a l IH]; cbn; [reflexivity | exact IH]. Qed.

Lemma firstn_clip (A : Type) (k : nat) (l : list A) :
  firstn k l = firstn (Nat.min k (List.length l)) l.
Proof.
  destruct (Nat.le_ge_cases k (List.length l)) as [H|H].
  - now rewrite Nat.min_l.
  - rewrite Nat.min_r by assumption.
    now rewrite firstn_all, firstn_all2.
Qed.

(** ** Invariants over every sequence of calls *)

(** X1.  After any sequence of calls of [initialize], [run], [finalize]
    and [add_recurring_event] on a new manager, however each of them
    ended, the initialized, running and finalizing flags are set only if
    the initializing flag is; so a call of [run] that finds the running
    flag set never does anything. *)
Theorem flags_are_set_only_after_initializing
    (events : list (E * Interval)) (cs : list (MCall E Time Interval)) :
  let s := call_all' cs (mkSys (__init__ Timeline_new events) [] []) in
  (_initialized (self s) = true -> _initializing (self s) = true) /\
  (_running (self s) = true -> _initializing (self s) = true) /\
  (_finalizing (self s) = true -> _initializing (self s) = true) /\
  (_running (self s) = true ->
   forall (d : nat) (stop : Time), run' (S d) stop s = (s, Ok tt)).
Proof.
  set (Inv := fun s : System =>
    _initializing (self s) = true \/
    (_initialized (self s) = false /\ _running (self s) = false /\
     _finalizing (self s) = false)).
  assert (Hstep : forall c s, Inv s -> Inv (fst (call' c s))).
  { intros c s HI. destruct c as [|fuel stop| |e i]; cbn [call].
    - left. now destruct (initialize_frame E Time Interval Timeline s).
    - destruct fuel as [|d]; [exact HI|]. left.
      destruct (run_after_initialize d stop s) as (_ & -> & _).
      now destruct (initialize_frame E Time Interval Timeline s).
    - destruct (finalize_frame s) as (Hi & _ & _ & _ & _ & Hidle & _).
      destruct HI as [HI|HI].
      + left. now rewrite Hi.
      + rewrite (Hidle (proj1 HI)). right. exact HI.
    - destruct (add_frame e i s) as (Hi & Hd & Hr & Hf & _).
      unfold Inv in *. rewrite Hi, Hd, Hr, Hf. exact HI. }
  assert (Hall : forall cs s, Inv s -> Inv (call_all' cs s)).
  { intros cs'. induction cs' as [|c cs' IH]; intros s HI; cbn [call_all];
      [exact HI | apply IH, Hstep, HI]. }
  intro s.
  assert (HI : Inv s) by (apply Hall; right; cbn; auto).
  assert (Hr : _running (self s) = true -> _initializing (self s) = true).
  { destruct HI as [HI|(_ & Hr & _)]; [auto | congruence]. }
  repeat split.
  - destruct HI as [HI|(Hd & _)]; [auto | congruence].
  - exact Hr.
  - destruct HI as [HI|(_ & _ & Hf)]; [auto | congruence].
  - intros Hrun d stop.
    apply (run_idle E Time Interval Timeline Gen).
    split; auto.
Qed.

(** X2.  After any sequence of calls on a new manager, the initialize
    operations invoked so far are those of the first [k] entries of the
    registration list, once each and in order, for some [k]: the walk of
    [initialize] happens at most once, and no entry is ever initialized
    twice. *)
Theorem initialize_operations_form_one_walk
    (events : list (E * Interval)) (cs : list (MCall E Time Interval)) :
  let s := call_all' cs (mkSys (__init__ Timeline_new events) [] []) in
  exists k, inits (calls s) = init_calls (firstn k (_order (self s))).
Proof.
  set (Inv := fun s : System =>
    (_initializing (self s) = false -> inits (calls s) = []) /\
    exists k, inits (calls s) = init_calls (firstn k (_order (self s)))).
  assert (Hinit : forall s, Inv s -> Inv (fst (initialize' s))).
  { unfold Inv. intros s (Hnone & Hsome).
    destruct (_initializing (self s)) eqn:Hi.
    - rewrite (initialize_idle E Time Interval Timeline s Hi). cbn [fst].
      rewrite Hi. now split.
    - destruct (initialize_frame E Time Interval Timeline s)
        as (Hi' & _ & _ & _ & Ho & k & Hk).
      split; [congruence|].
      exists k. rewrite Hk, filter_app, (Hnone eq_refl), Ho.
      apply inits_init_calls. }
  assert (Hquiet : forall s s', quiet s s' -> Inv s -> Inv s').
  { unfold Inv. intros s s' (Ho & Hi & _ & _ & _ & l & Hl & Hall)
      (Hnone & k & Hk).
    assert (Hsame : inits (calls s') = inits (calls s))
      by (rewrite Hl, filter_app, (inits_of_dispatches _ Hall);
          apply app_nil_r).
    split; [rewrite Hsame, Hi; exact Hnone|].
    exists k. now rewrite Hsame, Ho. }
  assert (Hstep : forall c s, Inv s -> Inv (fst (call' c s))).
  { intros c s HI. destruct c as [|fuel stop| |e i]; cbn [call].
    - now apply Hinit.
    - destruct fuel as [|d]; [exact HI|].
      apply (Hquiet _ _ (run_after_initialize d stop s)). now apply Hinit.
    - unfold Inv in *. destruct HI as (Hnone & k & Hk).
      destruct (finalize_frame s) as (Hi & _ & _ & Ho & _ & _ & _ & j & Hj).
      assert (Hsame : inits (calls (fst (finalize' s))) = inits (calls s))
        by (rewrite Hj, filter_app, inits_finalize_calls; apply app_nil_r).
      split; [rewrite Hsame, Hi; exact Hnone|].
      exists k. now rewrite Hsame, Ho.
    - unfold Inv in *. destruct HI as (Hnone & k & Hk).
      destruct (add_frame e i s) as (Hi & _ & _ & _ & Hc & _ & Ho).
      rewrite Hc, Hi. split; [exact Hnone|].
      destruct Ho as [-> | ->]; [now exists k|].
      exists (Nat.min k (List.length (_order (self s)))).
      rewrite firstn_app.
      replace (Nat.min k (List.length (_order (self s)))
               - List.length (_order (self s))) with 0 by lia.
      cbn [firstn]. rewrite app_nil_r, <- firstn_clip. exact Hk. }
  assert (Hall : forall cs s, Inv s -> Inv (call_all' cs s)).
  { intros cs'. induction cs' as [|c cs' IH]; intros s HI; cbn [call_all];
      [exact HI | apply IH, Hstep, HI]. }
  intro s. apply Hall. unfold Inv. split; [reflexivity|]. now exists 0.
Qed.

(** X3.  Once the initializing flag is set and the initialized flag is
    clear -- after an [initialize] that raised, or after a [finalize]
    that returned -- no sequence of calls ever sets the initialized flag
    again or invokes another initialize or finalize operation: a manager
    goes through its lifecycle once. *)
Theorem lifecycle_is_one_shot (s : System)
    (cs : list (MCall E Time Interval)) :
  _initializing (self s) = true ->
  _initialized (self s) = false ->
  let s' := call_all' cs s in
  _initializing (self s') = true /\
  _initialized (self s') = false /\
  lifecycle (calls s') = lifecycle (calls s).
Proof.
  revert s. induction cs as [|c cs IH]; intros s Hi Hd; cbn [call_all].
  - auto.
  - assert (Hstep : _initializing (self (fst (call' c s))) = true /\
                    _initialized (self (fst (call' c s))) = false /\
                    lifecycle (calls (fst (call' c s))) = lifecycle (calls s)).
    { destruct c as [|fuel stop| |e i]; cbn [call].
      - rewrite (initialize_idle E Time Interval Timeline s Hi). auto.
      - destruct (Quiet_run fuel stop s Hi)
          as (_ & Hi' & Hd' & _ & _ & l & Hl & Hall).
        repeat split; try congruence.
        rewrite Hl, filter_app, (lifecycle_of_dispatches _ Hall).
        apply app_nil_r.
      - rewrite (finalize_idle E Time Interval Timeline s Hd). auto.
      - destruct (add_frame e i s) as (Hi' & Hd' & _ & _ & -> & _).
        repeat split; congruence. }
    destruct Hstep as (Hi' & Hd' & Hl').
    destruct (IH _ Hi' Hd') as (H1 & H2 & H3). cbv zeta in *.
    repeat split; congruence.
Qed.

(** X4.  [rec] stands for what an event operation does to the manager
    when it calls back into it; in [run] itself it is a nested [run].
    Provided those calls only dispatch, then whatever the state of the
    manager, the budget and the way the call ends, [run] does what its
    call of [initialize] does and, after that, invokes only run and
    update operations: it invokes no finalize operation, does not change
    the registration list and does not touch the initializing,
    initialized and finalizing flags again. *)
Theorem run_is_initialize_then_dispatch (rec : Time -> Comp unit)
    (fuel : nat) (stop : Time) (s : System) :
  (forall t, dispatches_only (rec t)) ->
  let s1 := fst (initialize' s) in
  let s' := fst (run_body tl_time iter_until gen_next rec fuel stop s) in
  _order (self s') = _order (self s) /\
  _initializing (self s') = true /\
  _initialized (self s') = _initialized (self s1) /\
  _finalizing (self s') = _finalizing (self s) /\
  stdout s' = stdout s1 /\
  exists l, calls s' = calls s1 ++ l /\
            forallb (fun c => is_dispatch (snd c)) l = true.
Proof.
  intro Hrec. cbv zeta.
  destruct (initialize_frame E Time Interval Timeline s)
    as (Hi1 & _ & _ & Hf1 & Ho1 & _).
  assert (Hq : quiet (fst (initialize' s))
                 (fst (run_body tl_time iter_until gen_next rec fuel stop s))).
  { pose proof (Quiet_run_body rec Hrec fuel stop (fst (initialize' s)) Hi1)
      as Hq.
    unfold run_body in Hq |- *. unfold bind at 1 in Hq. unfold bind at 1.
    rewrite (initialize_idle E Time Interval Timeline _ Hi1) in Hq.
    destruct (initialize' s) as [s1 [[]| |]]; cbn [fst] in *;
      try apply quiet_refl.
    exact Hq. }
  destruct Hq as (Ho & Hi & Hd & Hf & Hp & Hl).
  repeat split; congruence || exact Hl.
Qed.

(** ** The methods one after the other *)

Local Abbreviation add_recurring_event' :=
  (@add_recurring_event E Time Interval Timeline tl_add_recurring_event).
Local Abbreviation with_block' :=
  (@with_block E Time Interval EV Timeline).

(** X5.  When [run] is the first call on a manager and the initialize
    operation of some entry raises, [run] raises that error having
    invoked only the initialize operations up to that entry: no event is
    dispatched, the timeline is not advanced and the running flag is left
    as it was. *)
Theorem run_stops_at_failed_initialize (fuel : nat) (stop : Time)
    (s : System) (pre post : list (E * Interval)) (entry : E * Interval)
    (x : Exn) :
  1 <= fuel ->
  _initializing (self s) = false ->
  _order (self s) = pre ++ entry :: post ->
  (forall p, In p pre -> ev_initialize (fst p) = Some Returns) ->
  ev_initialize (fst entry) = Some (Raises x) ->
  let s' := fst (run' fuel stop s) in
  snd (run' fuel stop s) = Raise x /\
  calls s' = calls s ++ init_calls pre ++ [(fst entry, OpInitialize)] /\
  _timeline (self s') = _timeline (self s) /\
  _running (self s') = _running (self s) /\
  _initialized (self s') = _initialized (self s).
Proof.
  intros Hfuel Hi Ho Hpre Hx. destruct fuel as [|d]; [lia|].
  rewrite (run_unfold E Time Interval Timeline Gen tl_time iter_until
             gen_next EV d stop).
  rewrite (initialize_fail E Time Interval Timeline s pre post entry x
             Hi Ho Hpre Hx).
  cbn. repeat split. unfold init_calls. now rewrite map_app.
Qed.

(** X6.  After an [initialize] that raised, [run] goes ahead all the
    same: its own call of [initialize] does nothing, and it dispatches
    every due occurrence, also of the events that were never
    initialized, and returns with the initialized flag still clear. *)
Theorem run_dispatches_after_failed_initialize (fuel : nat) (stop : Time)
    (s : System) (pre post : list (E * Interval)) (entry : E * Interval)
    (x : Exn) (evs : list (E * Timeline)) (g' : Gen) (tl' tl'' : Timeline) :
  List.length evs + 2 <= fuel ->
  _initializing (self s) = false ->
  _initialized (self s) = false ->
  _running (self s) = false ->
  _order (self s) = pre ++ entry :: post ->
  (forall p, In p pre -> ev_initialize (fst p) = Some Returns) ->
  ev_initialize (fst entry) = Some (Raises x) ->
  yields' (iter_until stop) (_timeline (self s)) evs g' tl' ->
  gen_next g' tl' = StopIteration tl'' ->
  benign' evs ->
  let s1 := fst (initialize' s) in
  let s2 := fst (run' fuel stop s1) in
  snd (initialize' s) = Raise x /\
  snd (run' fuel stop s1) = Ok tt /\
  calls s2 = calls s1 ++ due_calls' evs /\
  inits (calls s2) = inits (calls s1) /\
  _initialized (self s2) = false.
Proof.
  intros Hfuel Hi Hd Hr Ho Hpre Hx Hy Hstop Hben.
  rewrite (initialize_fail E Time Interval Timeline s pre post entry x
             Hi Ho Hpre Hx).
  cbn [fst snd].
  match goal with |- context [run' fuel stop ?t] => set (s1 := t) end.
  assert (Hidle : initialize' s1 = (s1, Ok tt))
    by (apply initialize_idle; reflexivity).
  rewrite (run_completes E Time Interval Timeline Gen tl_time iter_until
             gen_next fuel stop s1 s1 evs g' tl' tl'' Hfuel Hr Hidle Hy
             Hstop Hben).
  cbn. repeat split; auto.
  rewrite filter_app.
  assert (Hnone : forall l : list (E * Timeline), inits (due_calls' l) = []).
  { induction l as [|[e tl] l IH]; [reflexivity|].
    unfold due_calls. cbn [flat_map]. rewrite filter_app.
    fold (due_calls' l). rewrite IH, app_nil_r.
    unfold dispatch_calls, update_calls. cbn [fst snd].
    destruct (ev_run e), (falls_back e (tl_time tl)), (ev_update e);
      reflexivity. }
  now rewrite Hnone, app_nil_r.
Qed.

(** X7.  An event added with [add_recurring_event] after [initialize] has
    returned, the timeline accepting it, is appended to the registration
    list but never initialized -- a further [initialize] does nothing --
    and yet [finalize] invokes its finalize operation, before those of
    all the other events. *)
Theorem late_event_is_finalized_but_never_initialized (s : System)
    (event : E) (interval : Interval) (tl' : Timeline) :
  _initializing (self s) = false ->
  _finalizing (self s) = false ->
  (forall entry, In entry (_order (self s)) ->
     ev_initialize (fst entry) = Some Returns) ->
  (forall entry, In entry (_order (self s)) ->
     ev_finalize (fst entry) = Some Returns) ->
  ev_finalize event = Some Returns ->
  tl_add_recurring_event event interval (_timeline (self s)) = (tl', Ok tt) ->
  let s1 := fst (initialize' s) in
  let s2 := fst (add_recurring_event' event interval s1) in
  let s3 := fst (initialize' s2) in
  let s4 := fst (finalize' s3) in
  snd (add_recurring_event' event interval s1) = Ok tt /\
  _order (self s2) = _order (self s) ++ [(event, interval)] /\
  initialize' s2 = (s2, Ok tt) /\
  snd (finalize' s3) = Ok tt /\
  calls s4 =
    calls s ++ init_calls (_order (self s)) ++
    (event, OpFinalize) :: finalize_calls (rev (_order (self s))).
Proof.
  intros Hi Hf Hok Hfin He Hadd.
  rewrite (initialize_ok E Time Interval Timeline s Hi Hok). cbn [fst].
  unfold add_recurring_event, bind, on_timeline, modify.
  cbn [fst snd self calls stdout _timeline set_initialized set_initializing].
  rewrite Hadd. cbn [fst snd self calls stdout].
  match goal with |- context [initialize' ?t] => set (s2 := t) end.
  rewrite (initialize_idle E Time Interval Timeline s2 eq_refl). cbn [fst].
  rewrite (finalize_ok E Time Interval Timeline s2 eq_refl Hf).
  - cbn. rewrite rev_app_distr. cbn. rewrite <- app_assoc. auto.
  - cbn. intros p Hp. apply in_app_or in Hp.
    destruct Hp as [Hp|[<-|[]]]; [now apply Hfin | exact He].
Qed.

(** X8.  [with manager: manager.run(stop_time)] on a new manager whose
    events all behave: the initialize operations in registration order,
    then the dispatches of the due occurrences, then the finalize
    operations in reverse registration order, and the manager is left
    neither initialized nor running. *)
Theorem with_block_brackets_run (fuel : nat) (stop : Time) (s : System)
    (evs : list (E * Timeline)) (g' : Gen) (tl' tl'' : Timeline) :
  List.length evs + 2 <= fuel ->
  _initializing (self s) = false ->
  _running (self s) = false ->
  _finalizing (self s) = false ->
  (forall entry, In entry (_order (self s)) ->
     ev_initialize (fst entry) = Some Returns) ->
  (forall entry, In entry (_order (self s)) ->
     ev_finalize (fst entry) = Some Returns) ->
  yields' (iter_until stop) (_timeline (self s)) evs g' tl' ->
  gen_next g' tl' = StopIteration tl'' ->
  benign' evs ->
  let s' := fst (with_block' (run' fuel stop) s) in
  snd (with_block' (run' fuel stop) s) = Ok tt /\
  calls s' =
    calls s ++ init_calls (_order (self s)) ++ due_calls' evs ++
    finalize_calls (rev (_order (self s))) /\
  _initialized (self s') = false /\
  _running (self s') = false.
Proof.
  intros Hfuel Hi Hr Hf Hok Hfin Hy Hstop Hben.
  unfold with_block, __enter__, __exit__.
  rewrite (initialize_ok E Time Interval Timeline s Hi Hok).
  match goal with |- context [run' fuel stop ?t] => set (s1 := t) end.
  assert (Hidle : initialize' s1 = (s1, Ok tt))
    by (apply initialize_idle; reflexivity).
  rewrite (run_completes E Time Interval Timeline Gen tl_time iter_until
             gen_next fuel stop s1 s1 evs g' tl' tl'' Hfuel Hr Hidle Hy
             Hstop Hben).
  rewrite (finalize_ok E Time Interval Timeline)
    by (cbn; first [reflexivity | assumption]).
  cbn. rewrite <- !app_assoc. auto.
Qed.

(** X9.  When the block of a [with] statement raises on an initialized
    manager, [__exit__] still walks the registration list backwards
    invoking every finalize operation, and the error of the block is
    raised again afterwards. *)
Theorem with_block_finalizes_when_the_block_raises
    (body : Comp unit) (s s1 s2 : System) (x : Exn) :
  initialize' s = (s1, Ok tt) ->
  body s1 = (s2, Raise x) ->
  _initialized (self s2) = true ->
  _finalizing (self s2) = false ->
  (forall entry, In entry (_order (self s2)) ->
     ev_finalize (fst entry) = Some Returns) ->
  let s' := fst (with_block' body s) in
  snd (with_block' body s) = Raise x /\
  calls s' = calls s2 ++ finalize_calls (rev (_order (self s2))) /\
  _initialized (self s') = false.
Proof.
  intros Hinit Hbody Hd Hf Hfin.
  unfold with_block, __enter__, __exit__.
  rewrite Hinit, Hbody, (finalize_ok E Time Interval Timeline s2 Hd Hf Hfin).
  cbn. auto.
Qed.

(** X10.  When [__enter__] raises because the initialize operation of some
    entry raises, the block is not run and [__exit__] is not called: the
    statement ends as [initialize] did, and the events initialized before
    the failing one are not finalized. *)
Theorem with_block_skips_exit_when_enter_raises
    (body : Comp unit) (s : System) (pre post : list (E * Interval))
    (entry : E * Interval) (x : Exn) :
  _initializing (self s) = false ->
  _order (self s) = pre ++ entry :: post ->
  (forall p, In p pre -> ev_initialize (fst p) = Some Returns) ->
  ev_initialize (fst entry) = Some (Raises x) ->
  let s' := fst (with_block' body s) in
  with_block' body s = initialize' s /\
  snd (with_block' body s) = Raise x /\
  calls s' = calls s ++ init_calls pre ++ [(fst entry, OpInitialize)] /\
  _initializing (self s') = true.
Proof.
  intros Hi Ho Hpre Hx.
  unfold with_block, __enter__.
  rewrite (initialize_fail E Time Interval Timeline s pre post entry x
             Hi Ho Hpre Hx).
  cbn. repeat split. unfold init_calls. now rewrite map_app.
Qed.

End CallerFacts.

(** * More of the construction from a configuration *)

Section MoreConstructionFacts.

Variables Config Timeline : Type.
Variable sections : Config -> list string.
Variable get : Config -> string -> string -> Res string.
Variable names_with_prefix : list string -> string -> list string.
Variable Timeline_new : list (string * string) -> Timeline.

Local Abbreviation from_config' :=
  (_from_config sections get names_with_prefix Timeline_new).

Lemma from_config_loop_fail (config : Config) (value : string -> string)
    (pre post : list string) (n : string) (x : Exn) :
  (forall m, In m pre -> get config m "interval" = Ok (value m)) ->
  get config n "interval" = Raise x ->
  forall events,
    from_config_loop get config (pre ++ n :: post) events = Raise x.
Proof.
  intros Hpre Hn. induction pre as [|m pre IH]; intro events; cbn.
  - now rewrite Hn.
  - rewrite (Hpre m (or_introl eq_refl)). cbn.
    apply IH. intros; apply Hpre; now right.
Qed.

(** X13.  When one of the selected sections has no usable [interval]
    ([config.get] raises), [_from_config] raises that error for the first
    such section and builds no manager, whatever the later sections
    hold. *)
Theorem from_config_raises_at_first_missing_interval (config : Config)
    (prefix : string) (value : string -> string) (pre post : list string)
    (n : string) (x : Exn) :
  names_with_prefix (sections config) prefix = pre ++ n :: post ->
  (forall m, In m pre -> get config m "interval" = Ok (value m)) ->
  get config n "interval" = Raise x ->
  from_config' config prefix = Raise x.
Proof.
  intros Hnames Hpre Hn. unfold _from_config.
  now rewrite Hnames, (from_config_loop_fail config value pre post n x Hpre Hn).
Qed.

(** X14.  The events [_from_config] hands to the constructor are the
    section names themselves, which are strings and have none of the
    event operations: on every manager that has this list as its
    registration list and has not begun to initialize, [initialize]
    raises [AttributeError] at the first name without having invoked
    anything, prints its report and leaves the manager initializing but
    not initialized. *)
Theorem manager_from_config_cannot_initialize (Time : Type)
    (config : Config) (prefix : string) (value : string -> string)
    (n : string) (rest : list string) :
  names_with_prefix (sections config) prefix = n :: rest ->
  (forall m, In m (n :: rest) -> get config m "interval" = Ok (value m)) ->
  let events := (n, value n) :: map (fun k => (k, value k)) rest in
  from_config_loop get config
    (names_with_prefix (sections config) prefix) [] = Ok events /\
  forall s : Sys string Time string Timeline,
    _order (self s) = events ->
    _initializing (self s) = false ->
    @initialize string Time string (str_EventLike Time) Timeline s =
    (mkSys (set_initializing true (self s)) (calls s)
       (stdout s ++ [PStr "error initializing"; PEvent n]),
     Raise AttributeError).
Proof.
  intros Hnames Hget. cbv zeta. rewrite Hnames.
  rewrite (from_config_loop_ok Config get config value (n :: rest) Hget).
  split; [reflexivity|].
  intros s Ho Hi. unfold initialize, bind, gets. rewrite Hi. cbn.
  rewrite Ho. cbn [for_each].
  unfold bind, initialize_entry, try_except, call_initialize. cbn.
  now rewrite <- app_assoc.
Qed.

End MoreConstructionFacts.

(** * cmt.grids.esmp *)

Section ConnectivityFacts.

Variable A : Type.

Lemma slice_of_cell (pre c rest : list A) :
  slice (List.length pre) (List.length pre + List.length c)
    (pre ++ c ++ rest) = c.
Proof.
  unfold slice.
  replace (List.length pre + List.length c - List.length pre)
    with (List.length c) by lia.
  rewrite skipn_app, skipn_all, Nat.sub_diag. cbn.
  rewrite firstn_app, firstn_all, Nat.sub_diag. cbn. apply app_nil_r.
Qed.

Lemma set_slice_of_cell (pre c rest v : list A) :
  set_slice (List.length pre) (List.length pre + List.length c) v
    (pre ++ c ++ rest) = pre ++ v ++ rest.
Proof.
  unfold set_slice. rewrite slice_of_cell.
  rewrite firstn_app, firstn_all, Nat.sub_diag. cbn. rewrite app_nil_r.
  f_equal. f_equal.
  rewrite skipn_app.
  replace (List.length pre + List.length c - List.length pre)
    with (List.length c) by lia.
  rewrite (skipn_all2 pre) by lia. cbn.
  rewrite skipn_app, skipn_all, Nat.sub_diag. reflexivity.
Qed.

Lemma reverse_loop_cells (cells : list (list A)) :
  forall pre tail : list A,
    reverse_loop (cell_ends (List.length pre) cells) (List.length pre)
      (pre ++ List.concat cells ++ tail) =
    pre ++ List.concat (map (@rev A) cells) ++ tail.
Proof.
  induction cells as [|c cells IH]; intros pre tail; cbn.
  - reflexivity.
  - rewrite <- app_assoc. rewrite slice_of_cell, set_slice_of_cell.
    replace (List.length pre + List.length c)
      with (List.length (pre ++ rev c))
      by (now rewrite length_app, length_rev).
    rewrite (app_assoc pre (rev c)). rewrite IH.
    now rewrite <- !app_assoc.
Qed.

Lemma cell_ends_rev (cells : list (list A)) (start : nat) :
  cell_ends start (map (@rev A) cells) = cell_ends start cells.
Proof.
  revert start. induction cells as [|c cells IH]; intro start; cbn.
  - reflexivity.
  - now rewrite length_rev, IH.
Qed.

(** X15.  On a connectivity array that lists the nodes of its cells one
    cell after the other, with [_offset] holding where each cell ends,
    [reverse_element_ordering] reverses the node order inside every cell
    and leaves the cells, and whatever follows the last one, where they
    are. *)
Theorem reverse_element_ordering_reverses_each_cell
    (cells : list (list A)) (tail : list A) :
  reverse_element_ordering (cell_ends 0 cells) (List.concat cells ++ tail) =
  List.concat (map (@rev A) cells) ++ tail.
Proof.
  unfold reverse_element_ordering.
  exact (reverse_loop_cells cells [] tail).
Qed.

(** X16.  On such an array, reversing the element ordering twice gives
    the array back. *)
Theorem reverse_element_ordering_twice (cells : list (list A))
    (tail : list A) :
  let offsets := cell_ends 0 cells in
  let connectivity := List.concat cells ++ tail in
  reverse_element_ordering offsets
    (reverse_element_ordering offsets connectivity) = connectivity.
Proof.
  cbv zeta. unfold reverse_element_ordering.
  assert (Hrev : forall cs : list (list A),
            reverse_loop (cell_ends 0 cs) 0 (List.concat cs ++ tail) =
            List.concat (map (@rev A) cs) ++ tail)
    by (intro cs; exact (reverse_loop_cells cs [] tail)).
  rewrite Hrev, <- (cell_ends_rev cells 0), Hrev, map_map.
  f_equal. f_equal. rewrite <- (map_id cells) at 2.
  apply map_ext. intro c. apply rev_involutive.
Qed.

Lemma set_slice_rev_permutation (lo hi : nat) (a : list A) :
  Permutation (set_slice lo hi (rev (slice lo hi a)) a) a.
Proof.
  unfold set_slice, slice.
  set (b := skipn lo a). set (m := hi - lo).
  assert (Hrest : skipn (lo + List.length (firstn m b)) a = skipn m b).
  { unfold b. rewrite Nat.add_comm, <- skipn_skipn. fold b.
    rewrite length_firstn.
    destruct (Nat.le_ge_cases m (List.length b)) as [H|H].
    - now rewrite Nat.min_l.
    - rewrite Nat.min_r by assumption.
      now rewrite skipn_all, skipn_all2. }
  rewrite Hrest.
  transitivity (firstn lo a ++ b);
    [|unfold b; now rewrite firstn_skipn].
  apply Permutation_app_head.
  transitivity (firstn m b ++ skipn m b); [|now rewrite firstn_skipn].
  apply Permutation_app_tail. symmetry. apply Permutation_rev.
Qed.

(** X17.  Whatever the offsets are -- out of order, repeated or beyond
    the end -- [reverse_element_ordering] only rearranges the
    connectivity array: the result has the same entries, each as many
    times, and the same length. *)
Theorem reverse_element_ordering_permutes (offsets : list nat)
    (connectivity : list A) :
  Permutation (reverse_element_ordering offsets connectivity) connectivity /\
  List.length (reverse_element_ordering offsets connectivity) =
  List.length connectivity.
Proof.
  assert (H : forall (last : nat) (a : list A),
            Permutation (reverse_loop offsets last a) a).
  { induction offsets as [|o offsets IH]; intros last a; cbn.
    - reflexivity.
    - etransitivity; [apply IH | apply set_slice_rev_permutation]. }
  split; [apply H | apply Permutation_length, H].
Qed.

End ConnectivityFacts.

Section FieldFacts.

Variables Mesh Field Ptr V W : Type.
Variable centering_choices : list string.
Variable get_cell_count get_point_count : nat.
Variable _mesh : Mesh.
Variable ESMP_FieldCreate :
  Mesh -> string -> MeshLoc -> W -> W * (GridError + Field).
Variable ESMP_FieldGetPtr : Field -> nat -> W -> W * (GridError + Ptr).
Variable flat_assign : Ptr -> list V -> W -> W * (GridError + unit).

Local Abbreviation Store := (FieldStore Field W).
Local Abbreviation valid c := (existsb (String.eqb c) centering_choices).
Local Abbreviation wanted c :=
  (if String.eqb c "zonal" then get_cell_count else get_point_count).
Local Abbreviation meshloc_of c :=
  (if String.eqb c "zonal" then ESMP_MESHLOC_ELEMENT else ESMP_MESHLOC_NODE).

(** X18.  [add_field] checks its arguments before it calls ESMP: with a
    centering that is not one of [centering_choices] it raises
    [CenteringValueError], whatever the size of the data; with a valid
    centering and data whose size is not the cell count (for ['zonal']) or
    the point count (for any other centering) it raises [DimensionError]
    with the two sizes; in both cases the fields and the ESMP state are
    as before. *)
Theorem add_field_validates_before_esmp (field_name : string)
    (val : list V) (centering : string) (st : Store) :
  valid centering = false \/ List.length val <> wanted centering ->
  add_field centering_choices get_cell_count get_point_count _mesh
    ESMP_FieldCreate ESMP_FieldGetPtr flat_assign
    field_name val centering st =
  (st, inl (if valid centering
            then DimensionError (List.length val) (wanted centering)
            else CenteringValueError centering)).
Proof.
  intro H. unfold add_field.
  destruct (valid centering) eqn:Hv; cbn [negb]; [|reflexivity].
  destruct H as [H|H]; [discriminate|].
  destruct (String.eqb centering "zonal"); cbn [negb andb];
    apply Nat.eqb_neq in H; rewrite H; reflexivity.
Qed.

(** X19.  [add_field] registers a field only when it returns: if it
    raises, in its own checks or in any of the ESMP calls, the fields
    are exactly those there were; if it returns, [as_esmp] of the name
    gives the field that [ESMP_FieldCreate] made for that name on the
    elements (for ['zonal']) or on the nodes of the mesh, replacing any
    field of that name, and every other name is as before. *)
Theorem add_field_registers_only_on_success (field_name : string)
    (val : list V) (centering : string) (st : Store) :
  let result :=
    add_field centering_choices get_cell_count get_point_count _mesh
      ESMP_FieldCreate ESMP_FieldGetPtr flat_assign
      field_name val centering st in
  let st' := fst result in
  match snd result with
  | inl _ => _fields st' = _fields st
  | inr _ =>
      (exists w field,
         ESMP_FieldCreate _mesh field_name (meshloc_of centering) (esmp st)
           = (w, inr field) /\
         as_esmp field_name st' = inr field) /\
      List.length val = wanted centering /\
      forall other, other <> field_name ->
        as_esmp other st' = as_esmp other st
  end.
Proof.
  cbv zeta. unfold add_field.
  destruct (valid centering) eqn:Hv; cbn [negb]; [|reflexivity].
  assert (Hsize : forall n,
            Nat.eqb (List.length val) n = true -> List.length val = n)
    by (intros n Hn; now apply Nat.eqb_eq).
  destruct (String.eqb centering "zonal"); cbn [negb andb].
  - destruct (Nat.eqb (List.length val) get_cell_count) eqn:Hn;
      cbn [negb]; [|reflexivity].
    destruct (ESMP_FieldCreate _ _ _ _) as [w1 [err|field]];
      [reflexivity|].
    destruct (ESMP_FieldGetPtr _ _ _) as [w2 [err|ptr]]; [reflexivity|].
    destruct (flat_assign _ _ _) as [w3 [err|[]]]; [reflexivity|].
    cbn. unfold as_esmp. cbn. rewrite String.eqb_refl.
    split; [now exists w1, field|]. split; [auto|].
    intros other Hother. apply String.eqb_neq in Hother.
    now rewrite Hother.
  - destruct (Nat.eqb (List.length val) get_point_count) eqn:Hn;
      cbn [negb]; [|reflexivity].
    destruct (ESMP_FieldCreate _ _ _ _) as [w1 [err|field]];
      [reflexivity|].
    destruct (ESMP_FieldGetPtr _ _ _) as [w2 [err|ptr]]; [reflexivity|].
    destruct (flat_assign _ _ _) as [w3 [err|[]]]; [reflexivity|].
    cbn. unfold as_esmp. cbn. rewrite String.eqb_refl.
    split; [now exists w1, field|]. split; [auto|].
    intros other Hother. apply String.eqb_neq in Hother.
    now rewrite Hother.
Qed.

End FieldFacts.

(** * The further statements on concrete managers, configurations and grids *)

Local Abbreviation tl_at c sch := (@SpecTimeline.mkTimeline EventObject c sch).

(** After an [initialize] that raised, a caller keeps calling. *)
Lemma lifecycle_is_one_shot_witness :
  let bad := fails_initialize "bad" (EventError 1) in
  let s := fst (do_initialize (new_manager [(plain "A", 2); (bad, 2)]%Z)) in
  let s' := do_calls [CallInitialize; CallRun 5 6%Z; CallFinalize;
                      CallInitialize] s in
  _initializing (self s') = true /\
  _initialized (self s') = false /\
  filter (fun c : EventObject * Op Z => is_lifecycle (snd c)) (calls s') =
  filter (fun c : EventObject * Op Z => is_lifecycle (snd c)) (calls s).
Proof.
  refine (@lifecycle_is_one_shot EventObject Z Z _ TL Z
            (@SpecTimeline.tl_time EventObject)
            (@SpecTimeline.tl_add_recurring_event EventObject)
            SpecTimeline.iter_until (@SpecTimeline.gen_next EventObject)
            (fst (do_initialize
                    (new_manager [(plain "A", 2);
                                  (fails_initialize "bad" (EventError 1), 2)]%Z)))
            [CallInitialize; CallRun 5 6%Z; CallFinalize; CallInitialize]
            _ _); reflexivity.
Defined.

(** The calls back into the manager are those of a nested [run]. *)
Lemma run_is_initialize_then_dispatch_witness :
  let s := new_manager [(nosy "N", 2%Z)] in
  let s1 := fst (do_initialize s) in
  let s' := fst (do_run 5 6 s) in
  _order (self s') = _order (self s) /\
  _initializing (self s') = true /\
  _initialized (self s') = _initialized (self s1) /\
  _finalizing (self s') = _finalizing (self s) /\
  stdout s' = stdout s1 /\
  exists l, calls s' = calls s1 ++ l /\
            forallb (fun c : EventObject * Op Z => is_dispatch (snd c)) l
            = true.
Proof.
  refine (@run_is_initialize_then_dispatch EventObject Z Z _ TL Z
            (@SpecTimeline.tl_time EventObject) SpecTimeline.iter_until
            (@SpecTimeline.gen_next EventObject) (do_run 4) 5 6%Z
            (new_manager [(nosy "N", 2%Z)]) _).
  intro t. apply Quiet_run.
Defined.

Lemma run_stops_at_failed_initialize_witness :
  let bad := fails_initialize "B" (EventError 1) in
  let s := new_manager [(plain "A", 1); (bad, 1); (plain "C", 1)]%Z in
  let s' := fst (do_run 5 6 s) in
  snd (do_run 5 6 s) = Raise (EventError 1) /\
  calls s' = [(plain "A", OpInitialize); (bad, OpInitialize)] /\
  _timeline (self s') = _timeline (self s) /\
  _running (self s') = false /\
  _initialized (self s') = false.
Proof.
  refine (@run_stops_at_failed_initialize EventObject Z Z _ TL Z
            (@SpecTimeline.tl_time EventObject) SpecTimeline.iter_until
            (@SpecTimeline.gen_next EventObject) 5 6%Z
            (new_manager [(plain "A", 1);
                          (fails_initialize "B" (EventError 1), 1);
                          (plain "C", 1)]%Z)
            [(plain "A", 1%Z)] [(plain "C", 1%Z)]
            (fails_initialize "B" (EventError 1), 1%Z) (EventError 1)
            _ _ _ _ _).
  - lia.
  - reflexivity.
  - reflexivity.
  - intros p [<-|[]]; reflexivity.
  - reflexivity.
Defined.

(** [B] failed to initialize; it is run at time 2 all the same. *)
Lemma run_dispatches_after_failed_initialize_witness :
  let bad := fails_initialize "B" (EventError 1) in
  let s := new_manager [(bad, 2%Z)] in
  let s1 := fst (do_initialize s) in
  let s2 := fst (do_run 5 2 s1) in
  snd (do_initialize s) = Raise (EventError 1) /\
  snd (do_run 5 2 s1) = Ok tt /\
  calls s2 = calls s1 ++ [(bad, OpRun 2%Z)] /\
  filter (fun c : EventObject * Op Z => is_initialize (snd c)) (calls s2) =
  filter (fun c : EventObject * Op Z => is_initialize (snd c)) (calls s1) /\
  _initialized (self s2) = false.
Proof.
  refine (@run_dispatches_after_failed_initialize EventObject Z Z _ TL Z
            (@SpecTimeline.tl_time EventObject) SpecTimeline.iter_until
            (@SpecTimeline.gen_next EventObject) 5 2%Z
            (new_manager [(fails_initialize "B" (EventError 1), 2%Z)])
            [] [] (fails_initialize "B" (EventError 1), 2%Z) (EventError 1)
            [(fails_initialize "B" (EventError 1),
              tl_at 2%Z [(fails_initialize "B" (EventError 1), 4, 2)]%Z)]
            2%Z
            (tl_at 2%Z [(fails_initialize "B" (EventError 1), 4, 2)]%Z)
            (tl_at 2%Z [(fails_initialize "B" (EventError 1), 4, 2)]%Z)
            _ _ _ _ _ _ _ _ _ _).
  - simpl. lia.
  - reflexivity.
  - reflexivity.
  - reflexivity.
  - reflexivity.
  - intros p [].
  - reflexivity.
  - eapply yields_cons; [reflexivity | apply yields_nil].
  - reflexivity.
  - intros occ [<-|[]]. reflexivity.
Defined.

Lemma late_event_is_finalized_but_never_initialized_witness :
  let s := new_manager [(plain "A", 2%Z)] in
  let s1 := fst (do_initialize s) in
  let s2 := fst (add_recurring_event
                   (@SpecTimeline.tl_add_recurring_event EventObject)
                   (plain "late") 3%Z s1) in
  let s3 := fst (do_initialize s2) in
  let s4 := fst (do_finalize s3) in
  snd (add_recurring_event
         (@SpecTimeline.tl_add_recurring_event EventObject)
         (plain "late") 3%Z s1) = Ok tt /\
  _order (self s2) = [(plain "A", 2%Z); (plain "late", 3%Z)] /\
  do_initialize s2 = (s2, Ok tt) /\
  snd (do_finalize s3) = Ok tt /\
  calls s4 = [(plain "A", OpInitialize); (plain "late", OpFinalize);
              (plain "A", OpFinalize)].
Proof.
  refine (@late_event_is_finalized_but_never_initialized EventObject Z Z _ TL
            (@SpecTimeline.tl_add_recurring_event EventObject)
            (new_manager [(plain "A", 2%Z)]) (plain "late") 3%Z
            (tl_at 0%Z [(plain "A", 2, 2); (plain "late", 3, 3)]%Z)
            _ _ _ _ _ _).
  - reflexivity.
  - reflexivity.
  - intros entry [<-|[]]; reflexivity.
  - intros entry [<-|[]]; reflexivity.
  - reflexivity.
  - reflexivity.
Defined.

(** The timeline refuses an interval that is not positive: the event is
    not registered. *)
Example add_recurring_event_refused :
  let s := new_manager [(plain "A", 2%Z)] in
  add_recurring_event (@SpecTimeline.tl_add_recurring_event EventObject)
    (plain "late") (-3)%Z s
  = (s, Raise (ConfigError "interval must be positive")).
Proof. reflexivity. Qed.

Lemma with_block_brackets_run_witness :
  let s := new_manager [(plain "A", 2%Z)] in
  let s' := fst (do_with (do_run 5 2) s) in
  snd (do_with (do_run 5 2) s) = Ok tt /\
  calls s' = [(plain "A", OpInitialize); (plain "A", OpRun 2%Z);
              (plain "A", OpFinalize)] /\
  _initialized (self s') = false /\
  _running (self s') = false.
Proof.
  refine (@with_block_brackets_run EventObject Z Z _ TL Z
            (@SpecTimeline.tl_time EventObject) SpecTimeline.iter_until
            (@SpecTimeline.gen_next EventObject) 5 2%Z
            (new_manager [(plain "A", 2%Z)])
            [(plain "A", tl_at 2%Z [(plain "A", 4, 2)]%Z)] 2%Z
            (tl_at 2%Z [(plain "A", 4, 2)]%Z)
            (tl_at 2%Z [(plain "A", 4, 2)]%Z)
            _ _ _ _ _ _ _ _ _).
  - simpl. lia.
  - reflexivity.
  - reflexivity.
  - reflexivity.
  - intros entry [<-|[]]; reflexivity.
  - intros entry [<-|[]]; reflexivity.
  - eapply yields_cons; [reflexivity | apply yields_nil].
  - reflexivity.
  - intros occ [<-|[]]. reflexivity.
Defined.

(** The block is a [run] in which [B] raises at time 3. *)
Lemma with_block_finalizes_when_the_block_raises_witness :
  let B := fails_run "B" (EventError 7) in
  let s := new_manager [(plain "A", 2); (B, 3)]%Z in
  let s2 := fst (do_run 5 6 (fst (do_initialize s))) in
  let s' := fst (do_with (do_run 5 6) s) in
  snd (do_with (do_run 5 6) s) = Raise (EventError 7) /\
  calls s' = calls s2 ++ [(B, OpFinalize); (plain "A", OpFinalize)] /\
  _initialized (self s') = false.
Proof.
  refine (@with_block_finalizes_when_the_block_raises EventObject Z Z _ TL
            (do_run 5 6)
            (new_manager [(plain "A", 2); (fails_run "B" (EventError 7), 3)]%Z)
            (fst (do_initialize
               (new_manager [(plain "A", 2);
                             (fails_run "B" (EventError 7), 3)]%Z)))
            (fst (do_run 5 6 (fst (do_initialize
               (new_manager [(plain "A", 2);
                             (fails_run "B" (EventError 7), 3)]%Z)))))
            (EventError 7) _ _ _ _ _).
  - reflexivity.
  - reflexivity.
  - reflexivity.
  - reflexivity.
  - intros entry [<-|[<-|[]]]; reflexivity.
Defined.

Lemma with_block_skips_exit_when_enter_raises_witness :
  let bad := fails_initialize "B" (EventError 1) in
  let s := new_manager [(plain "A", 1); (bad, 1)]%Z in
  let s' := fst (do_with (do_run 5 6) s) in
  do_with (do_run 5 6) s = do_initialize s /\
  snd (do_with (do_run 5 6) s) = Raise (EventError 1) /\
  calls s' = [(plain "A", OpInitialize); (bad, OpInitialize)] /\
  _initializing (self s') = true.
Proof.
  refine (@with_block_skips_exit_when_enter_raises EventObject Z Z _ TL
            (do_run 5 6)
            (new_manager [(plain "A", 1);
                          (fails_initialize "B" (EventError 1), 1)]%Z)
            [(plain "A", 1%Z)] []
            (fails_initialize "B" (EventError 1), 1%Z) (EventError 1)
            _ _ _ _).
  - reflexivity.
  - reflexivity.
  - intros p [<-|[]]; reflexivity.
  - reflexivity.
Defined.

Lemma run_standalone_witness :
  let s := new_manager [(plain "A", 2%Z)] in
  let s' := fst (do_run 5 2 s) in
  snd (do_run 5 2 s) = Ok tt /\
  calls s' = [(plain "A", OpInitialize); (plain "A", OpRun 2%Z)] /\
  _initialized (self s') = true /\
  _running (self s') = false /\
  _timeline (self s') = tl_at 2%Z [(plain "A", 4, 2)]%Z.
Proof.
  refine (@run_standalone EventObject Z Z _ TL Z
            (@SpecTimeline.tl_time EventObject) SpecTimeline.iter_until
            (@SpecTimeline.gen_next EventObject) 5 2%Z
            (new_manager [(plain "A", 2%Z)])
            [(plain "A", tl_at 2%Z [(plain "A", 4, 2)]%Z)] 2%Z
            (tl_at 2%Z [(plain "A", 4, 2)]%Z)
            (tl_at 2%Z [(plain "A", 4, 2)]%Z)
            _ _ _ _ _ _ _).
  - simpl. lia.
  - reflexivity.
  - reflexivity.
  - intros entry [<-|[]]; reflexivity.
  - eapply yields_cons; [reflexivity | apply yields_nil].
  - reflexivity.
  - intros occ [<-|[]]. reflexivity.
Defined.

Local Abbreviation names_timeline :=
  (fun events : list (string * string) =>
     SpecTimeline.mkTimeline 0
       (map (fun entry => (fst entry, 0%Z, 0%Z)) events)).

(** Two of three sections match the prefix. *)
Lemma from_config_registration_list_witness :
  let config :=
    [("model.a", [("interval", "1")]); ("other", [("interval", "9")]);
     ("model.b", [("interval", "2")])] in
  from_config_loop simple_get config
    (simple_names_with_prefix (simple_sections config) "model") []
  = Ok [("model.a", "1"); ("model.b", "2")] /\
  exists m,
    simple_from_config config "model" = Ok m /\
    _order m = [("model.a", "1"); ("model.b", "2")] /\
    _initializing m = false /\ _initialized m = false /\
    _running m = false /\ _finalizing m = false.
Proof.
  cbv zeta.
  assert (Hget : forall n,
    In n (simple_names_with_prefix
            (simple_sections
               [("model.a", [("interval", "1")]);
                ("other", [("interval", "9")]);
                ("model.b", [("interval", "2")])]) "model") ->
    simple_get
      [("model.a", [("interval", "1")]); ("other", [("interval", "9")]);
       ("model.b", [("interval", "2")])] n "interval"
    = Ok (if String.eqb n "model.a" then "1" else "2")).
  { intros n H. vm_compute in H. destruct H as [<-|[<-|[]]]; reflexivity. }
  destruct (@from_config_registration_list SimpleConfig
              (SpecTimeline.Timeline string) simple_sections simple_get
              simple_names_with_prefix names_timeline
              [("model.a", [("interval", "1")]);
               ("other", [("interval", "9")]);
               ("model.b", [("interval", "2")])]
              "model"
              (fun n => if String.eqb n "model.a" then "1" else "2") Hget)
    as [Hloop Hm].
  split; [exact Hloop|].
  eexists. split; [reflexivity|]. apply Hm. reflexivity.
Defined.

(** The second matching section has no [interval]. *)
Lemma from_config_raises_at_first_missing_interval_witness :
  simple_from_config
    [("model.a", [("interval", "1")]); ("model.b", [("step", "2")]);
     ("model.c", [("interval", "3")])] "model"
  = Raise (ConfigError "NoOptionError").
Proof.
  refine (@from_config_raises_at_first_missing_interval SimpleConfig
            (SpecTimeline.Timeline string) simple_sections simple_get
            simple_names_with_prefix names_timeline
            [("model.a", [("interval", "1")]); ("model.b", [("step", "2")]);
             ("model.c", [("interval", "3")])]
            "model" (fun _ => "1") ["model.a"] ["model.c"] "model.b"
            (ConfigError "NoOptionError") _ _ _).
  - reflexivity.
  - intros m [<-|[]]. reflexivity.
  - reflexivity.
Defined.

Lemma manager_from_config_cannot_initialize_witness :
  let config := [("model.a", [("interval", "1")])] in
  let m := __init__ names_timeline [("model.a", "1")] in
  from_config_loop simple_get config
    (simple_names_with_prefix (simple_sections config) "") []
  = Ok [("model.a", "1")] /\
  @initialize string Z string (str_EventLike Z)
    (SpecTimeline.Timeline string) (mkSys m [] []) =
  (mkSys (set_initializing true m) []
     [PStr "error initializing"; PEvent "model.a"],
   Raise AttributeError).
Proof.
  cbv zeta.
  assert (Hget : forall k, In k ["model.a"] ->
    simple_get [("model.a", [("interval", "1")])] k "interval" = Ok "1")
    by (intros k [<-|[]]; reflexivity).
  destruct (@manager_from_config_cannot_initialize SimpleConfig
              (SpecTimeline.Timeline string) simple_sections simple_get
              simple_names_with_prefix Z
              [("model.a", [("interval", "1")])] "" (fun _ => "1")
              "model.a" [] eq_refl Hget)
    as [Hloop Hfail].
  split; [exact Hloop|].
  exact (Hfail (mkSys (__init__ names_timeline [("model.a", "1")]) [] [])
           eq_refl eq_refl).
Defined.

(** The grid of the module's docstring, [0 1 4 3] and [1 2 5 4]. *)
Example reverse_element_ordering_of_two_quads :
  reverse_element_ordering [4; 8] [0; 1; 4; 3; 1; 2; 5; 4] =
  [3; 4; 1; 0; 4; 5; 2; 1].
Proof. reflexivity. Qed.

(** Offsets that go back and beyond the end of the array. *)
Example reverse_element_ordering_of_odd_offsets :
  reverse_element_ordering [3; 2; 10] [10; 11; 12; 13; 14] =
  [12; 11; 14; 13; 10].
Proof. reflexivity. Qed.

(** The docstring's [DimensionError: 2 != 6]. *)
Lemma add_field_validates_before_esmp_witness :
  let st := no_fields (string * MeshLoc) tt in
  simple_add_field "bad var" [0; 1]%Z "point" st
  = (st, inl (DimensionError 2 6)).
Proof.
  refine (@add_field_validates_before_esmp unit (string * MeshLoc) unit Z
            unit ["zonal"; "point"] 2 6 tt
            (fun _ n loc w => (w, inr (n, loc)))
            (fun _ _ w => (w, inr tt)) (fun _ _ w => (w, inr tt))
            "bad var" [0; 1]%Z "point"
            (no_fields (string * MeshLoc) tt) _).
  right. vm_compute. intro H. discriminate H.
Defined.

(** A centering that is not a choice is refused first, although the size
    is wrong as well. *)
Example add_field_refuses_unknown_centering :
  let st := no_fields (string * MeshLoc) tt in
  simple_add_field "var0" [0; 1]%Z "edge" st
  = (st, inl (CenteringValueError "edge")).
Proof. reflexivity. Qed.
